(** * Terraform Cloud to S3 state migration: key derivation and processing loop

    A shallow embedding of [src/tfc-to-s3-migration/main.py].

    Python [str] values are modelled as lists of characters.  The pattern used
    by [parse_prefixed_workspace] is compiled with [re.ASCII], so every
    character outside the ASCII letters, digits and underscore is an ordinary
    non-word character for it; the 8-bit [ascii] type keeps the characters the
    pattern distinguishes and 128 that it does not.

    The loop of [main] is modelled in a state and exception monad.  What the
    workspace service, [requests] and the object store answer is given with
    each enumerated workspace, one answer per call site; an interrupt arrives
    as the answer of a call.  Creating a directory and writing a file are
    taken to succeed; reading a cached metadata file ends as what the file
    holds makes [json.load] end.  The enumeration is the finite sequence of
    pairs it yields. *)

From Stdlib Require Import Ascii String.
From Stdlib Require Import List Bool Arith ZArith Lia Permutation.
Import ListNotations.

Local Open Scope list_scope.
Local Open Scope bool_scope.

(* ================================================================== *)
(** ** Strings *)

Definition str := list ascii.

(** A string literal of the source. *)
Definition lit (x : string) : str := list_ascii_of_string x.

Definition newline : ascii := ascii_of_nat 10.

Fixpoint str_eqb (a b : str) : bool :=
  match a, b with
  | [], [] => true
  | x :: a', y :: b' => Ascii.eqb x y && str_eqb a' b'
  | _, _ => false
  end.

Definition in_range (lo hi c : ascii) : bool :=
  (nat_of_ascii lo <=? nat_of_ascii c) && (nat_of_ascii c <=? nat_of_ascii hi).

Definition is_upper (c : ascii) : bool := in_range "A" "Z" c.
Definition is_lower (c : ascii) : bool := in_range "a" "z" c.
Definition is_digit (c : ascii) : bool := in_range "0" "9" c.

(** The character class [[A-Za-z0-9]] of the look-behind. *)
Definition is_alnum (c : ascii) : bool := is_upper c || is_lower c || is_digit c.

(** [\w] under [re.ASCII]: [[a-zA-Z0-9_]]. *)
Definition is_word (c : ascii) : bool := is_alnum c || Ascii.eqb c "_".

(** Case folding of [re.IGNORECASE] under [re.ASCII]: only the ASCII letters. *)
Definition lower (c : ascii) : ascii :=
  if is_upper c then ascii_of_nat (nat_of_ascii c + 32) else c.

Definition ieq (a b : ascii) : bool := Ascii.eqb (lower a) (lower b).

(** [name[:-k]] for [k >= 1]: everything but the last [k] characters, the
    empty string when [name] has at most [k] of them. *)
Definition drop_last (k : nat) (name : str) : str :=
  firstn (length name - k) name.

(* ================================================================== *)
(** ** The pattern [(?<![A-Za-z0-9]){ws}\b$] *)

Module Regex.

(** [(?<![A-Za-z0-9])] at position [i]: no alphanumeric just before [i]. *)
Definition lookbehind (name : str) (i : nat) : bool :=
  match i with
  | 0 => true
  | S j => match nth_error name j with
           | Some c => negb (is_alnum c)
           | None => true
           end
  end.

(** The literal [ws], ignoring case, against a prefix of [text]. *)
Fixpoint literal (ws text : str) : bool :=
  match ws, text with
  | [], _ => true
  | c :: ws', d :: text' => ieq c d && literal ws' text'
  | _ :: _, [] => false
  end.

Definition word_at (name : str) (j : nat) : bool :=
  match nth_error name j with
  | Some c => is_word c
  | None => false
  end.

(** [\b] at position [j]: exactly one side is a word character. *)
Definition word_boundary (name : str) (j : nat) : bool :=
  xorb (match j with 0 => false | S k => word_at name k end) (word_at name j).

(** [$] without [re.MULTILINE]: the end of the string, or just before a
    newline that is the last character. *)
Definition dollar (name : str) (j : nat) : bool :=
  (j =? length name)
  || ((S j =? length name)
      && match nth_error name j with
         | Some c => Ascii.eqb c newline
         | None => false
         end).

(** The whole pattern, anchored at position [i]. *)
Definition match_at (ws name : str) (i : nat) : bool :=
  lookbehind name i
  && literal ws (skipn i name)
  && word_boundary name (i + length ws)
  && dollar name (i + length ws).

(** [re.search(pattern, name)] is truthy: some position matches. *)
Definition search (ws name : str) : bool :=
  existsb (match_at ws name) (seq 0 (S (length name))).

End Regex.

(* ================================================================== *)
(** ** Key derivation *)

Definition WELL_KNOWN_WORKSPACES : list str :=
  [lit "default"; lit "dev"; lit "stg"; lit "prod"].

(** [well_known_workspaces] is a Python set: the list is its iteration order,
    which the language does not fix.  Each name is interpolated into the
    pattern and read here as a literal, which it is when made of letters and
    digits, as the four known names are: the script passes no other set, and
    the statements on the script's results take an order of that set. *)
Fixpoint parse_prefixed_workspace (name : str) (well_known_workspaces : list str)
  : str * str :=
  match well_known_workspaces with
  | [] => (name, [])
  | ws :: rest =>
      if Regex.search ws name
      then (drop_last (length ws + 1) name, ws)
      else parse_prefixed_workspace name rest
  end.

(** The object key computed in [main] from the parsed name. *)
Definition s3_object_key_of (state_name workspace : str) : str :=
  if match workspace with [] => true | _ => false end
     || str_eqb workspace (lit "default")
  then state_name ++ lit "/terraform.tfstate"
  else lit "env:/" ++ workspace ++ lit "/" ++ state_name ++ lit "/terraform.tfstate".

Definition s3_object_key (ws_name : str) (well_known_workspaces : list str) : str :=
  let '(state_name, workspace) :=
    parse_prefixed_workspace ws_name well_known_workspaces in
  s3_object_key_of state_name workspace.

(** "Trailing whole word": the name ends with the suffix, ignoring case, and
    the character just before the suffix, if any, is not alphanumeric. *)
Definition trailing_whole_word (ws name : str) : bool :=
  (length ws <=? length name)
  && Regex.literal ws (skipn (length name - length ws) name)
  && Regex.lookbehind name (length name - length ws).

(* ================================================================== *)
(** ** Data of the processing loop *)

Definition bytes := list Byte.byte.

(** A workspace record as the service returns it: [ws["id"]],
    [ws["attributes"]["name"]] and the rest of the document. *)
Record workspace := mkWorkspace {
  ws_id : str;
  ws_name : str;
  ws_rest : str
}.

Definition workspace_eqb (a b : workspace) : bool :=
  str_eqb (ws_id a) (ws_id b)
  && str_eqb (ws_name a) (ws_name b)
  && str_eqb (ws_rest a) (ws_rest b).

(** State-version metadata; the download URL is
    [metadata["attributes"]["hosted-state-download-url"]], which a document
    may lack. *)
Record metadata := mkMetadata {
  hosted_state_download_url : option str;
  md_rest : str
}.

(** A [requests] response. *)
Record response := mkResponse {
  status_code : Z;
  content : bytes
}.

Inductive exn :=
| KeyboardInterrupt
| TFCHTTPNotFound
| TFCHTTPConflict
| JSONDecodeError
| UnicodeDecodeError
| RecursionError
| HTTPError (status : Z)
| KeyError
| SystemExit (code : Z)
| OtherError.

Inductive result (A : Type) : Type :=
| Ok (a : A)
| Raise (e : exn).
Arguments Ok {A} a.
Arguments Raise {A} e.

(** What a cached metadata file holds, as [open] and [json.load] see it:
    a JSON document; text that is not one ([json.JSONDecodeError]); bytes that
    are not text in the encoding [open] reads with ([UnicodeDecodeError],
    raised by the read inside [json.load]); a document nested deeper than the
    interpreter recurses ([RecursionError]). *)
Inductive file_content :=
| Json (m : metadata)
| Malformed
| Undecodable
| TooDeep.

Inductive level := DEBUG | INFO | WARNING | ERROR.

(** One constructor per logging call of the script. *)
Inductive message :=
| DryRunMode
| CachingTo (dir : str)
| ReachedLimit (limit : Z)
| LockingWorkspace (name : str)
| FetchingMetadata (name : str)
| ReadingMetadataFile (path : str)
| MetadataFileCorrupted (path : str)
| RequestingMetadata
| NoStoredStateFound
| WritingMetadataFile (path : str)
| CorruptedFallingBack (name : str)
| FetchingTfstate (name : str)
| DownloadingTfstate (url : str)
| WritingTfstateFile (path : str)
| Interrupted (name : str)
| NoStoredStates (name : str)
| LockedSkipping (name : str)
| UnlockingWorkspace (name : str)
| IgnoringError
| UploadingTfstate (bucket key : str)
| WouldUploadTfstate (bucket key : str)
| UploadedTfstate (name bucket key : str)
| WouldHaveUploadedTfstate (name bucket key : str)
| Processed (got total : nat)
| SkippedWorkspaces (names : list str)
| SavingSkipped (path : str)
| StatsTotal (n : nat)
| StatsUploaded (n : nat)
| StatsSkipped (n : nat).

Definition log_entry : Type := level * message.

(** Calls that leave the process: the remote service, the object store and
    the local file system. *)
Inductive effect :=
| Mkdir (dir : str)
| Lock (id : str)
| Unlock (id : str)
| GetCurrent (id : str)
| HttpGet (url token : str)
| WriteMetadata (path : str) (m : metadata)
| WriteTfstate (path : str) (data : bytes)
| Upload (bucket key : str) (data : bytes)
| WriteSkipped (path : str) (skipped : list workspace).

(** The command line ([get_args]); the search and retry options only select
    the enumeration and are part of it.  [cache_dir] is only tested for truth
    before it is used, so the absent option is the empty string. *)
Record args := mkArgs {
  s3_bucket_name : str;
  skip_lock : bool;
  cache_dir : str;
  limit_workspaces : Z;
  dry_run : bool;
  stats : bool
}.

(** The process environment.  [abspath] is [os.path.abspath], which depends
    on the working directory of the process. *)
Record environ := mkEnviron {
  THIS_DIR : str;
  TFC_TOKEN : str;
  cache_dir_exists : bool;
  abspath : str -> str
}.

(** How the outside answers the calls made for one enumerated workspace. *)
Record responses := mkResponses {
  lock_response : result unit;
  get_current_response : result metadata;
  fallback_get_current_response : result metadata;
  download_response : result response;
  interrupt_unlock_response : result unit;
  unlock_response : result unit;
  upload_response : result unit
}.

(** One element of the enumeration: the pair [(workspace, total_count)] and
    the answers it will meet. *)
Record item := mkItem {
  it_ws : workspace;
  it_total : nat;
  it_env : responses
}.

(** The local variables of [main] together with the log, the calls made so
    far and the metadata cache files on disk. *)
Record state := mkState {
  skipped_workspaces : list workspace;
  uploaded_ws_count : nat;
  total_ws_count : nat;
  LOG : list log_entry;
  effects : list effect;
  files : list (str * file_content)
}.

Definition set_skipped (l : list workspace) (s : state) : state :=
  mkState l (uploaded_ws_count s) (total_ws_count s) (LOG s) (effects s) (files s).
Definition set_uploaded (n : nat) (s : state) : state :=
  mkState (skipped_workspaces s) n (total_ws_count s) (LOG s) (effects s) (files s).
Definition set_total (n : nat) (s : state) : state :=
  mkState (skipped_workspaces s) (uploaded_ws_count s) n (LOG s) (effects s) (files s).
Definition add_log (e : log_entry) (s : state) : state :=
  mkState (skipped_workspaces s) (uploaded_ws_count s) (total_ws_count s)
          (LOG s ++ [e]) (effects s) (files s).
Definition add_effect (e : effect) (s : state) : state :=
  mkState (skipped_workspaces s) (uploaded_ws_count s) (total_ws_count s)
          (LOG s) (effects s ++ [e]) (files s).
Definition put_file (path : str) (c : file_content) (s : state) : state :=
  mkState (skipped_workspaces s) (uploaded_ws_count s) (total_ws_count s)
          (LOG s) (effects s) ((path, c) :: files s).

Fixpoint read_file (path : str) (fs : list (str * file_content))
  : option file_content :=
  match fs with
  | [] => None
  | (p, c) :: fs' => if str_eqb p path then Some c else read_file path fs'
  end.

Definition initial_state (fs : list (str * file_content)) : state :=
  mkState [] 0 0 [] [] fs.

(* ================================================================== *)
(** ** State and exceptions *)

Definition M (A : Type) : Type := state -> result A * state.

Definition ret {A} (a : A) : M A := fun s => (Ok a, s).

Definition raise {A} (e : exn) : M A := fun s => (Raise e, s).

Definition bind {A B} (m : M A) (k : A -> M B) : M B :=
  fun s => match m s with
           | (Ok a, s') => k a s'
           | (Raise e, s') => (Raise e, s')
           end.

Notation "x <- m ;; k" := (bind m (fun x => k))
  (at level 61, m at next level, right associativity).
Notation "m ;; k" := (bind m (fun _ => k))
  (at level 61, right associativity).

(** [try: m  except ...]: the handler table answers [None] for the exceptions
    no clause catches. *)
Definition try_except {A} (m : M A) (handler : exn -> option (M A)) : M A :=
  fun s => match m s with
           | (Ok a, s') => (Ok a, s')
           | (Raise e, s') =>
               match handler e with
               | Some h => h s'
               | None => (Raise e, s')
               end
           end.

(** [try: m  finally: fin]: [fin] always runs; an exception it raises
    replaces the outcome of [m]. *)
Definition try_finally {A} (m : M A) (fin : M unit) : M A :=
  fun s => match m s with
           | (r, s1) =>
               match fin s1 with
               | (Ok _, s2) => (r, s2)
               | (Raise e, s2) => (Raise e, s2)
               end
           end.

Definition get {A} (f : state -> A) : M A := fun s => (Ok (f s), s).
Definition modify (f : state -> state) : M unit := fun s => (Ok tt, f s).

Definition log (l : level) (m : message) : M unit := modify (add_log (l, m)).

(** An outside call: recorded, then answered as the environment says. *)
Definition call {A} (e : effect) (answer : result A) : M A :=
  fun s => (answer, add_effect e s).

Definition when (b : bool) (m : M unit) : M unit := if b then m else ret tt.

(** Truth value of an optional string: [None] and [""] are false. *)
Definition truthy (o : option str) : bool :=
  match o with
  | Some (_ :: _) => true
  | _ => false
  end.

Definition starts_with_slash (p : str) : bool :=
  match p with
  | c :: _ => Ascii.eqb c "/"
  | [] => false
  end.

Definition ends_with_slash (p : str) : bool := starts_with_slash (rev p).

(** [os.path.join(a, b)] on POSIX. *)
Definition path_join (a b : str) : str :=
  if starts_with_slash b then b
  else if match a with [] => true | _ => false end || ends_with_slash a
       then a ++ b
       else a ++ lit "/" ++ b.

Definition nonempty {A} (l : list A) : bool :=
  match l with
  | [] => false
  | _ :: _ => true
  end.

(* ================================================================== *)
(** ** The helpers of [main] *)

Definition requests_codes_ok : Z := 200.

(** [Response.raise_for_status] of [requests]: an [HTTPError] for the client
    and server error statuses 400 to 599, nothing for any other status. *)
Definition raise_for_status (r : response) : M unit :=
  if ((400 <=? status_code r) && (status_code r <? 600))%Z
  then raise (HTTPError (status_code r))
  else ret tt.

Definition create_tfstate_cache (env : environ) (dir : str) : M bool :=
  when (negb (cache_dir_exists env)) (call (Mkdir dir) (Ok tt));;
  ret true.

(** [json.load(f)] on the opened file: of what it can raise, only
    [JSONDecodeError] has an [except] clause in the script. *)
Definition json_load (c : file_content) : M metadata :=
  match c with
  | Json m => ret m
  | Malformed => raise JSONDecodeError
  | Undecodable => raise UnicodeDecodeError
  | TooDeep => raise RecursionError
  end.

(** [get_current] is the answer [tfc.state_versions.get_current] gives if
    this call reaches it. *)
Definition get_tfstate_metadata (workspace_id : str) (metadata_file : option str)
    (dry_run : bool) (get_current : result metadata) : M metadata :=
  fs <- get files;;
  match metadata_file with
  | Some f =>
      match (if truthy metadata_file then read_file f fs else None) with
      | Some c =>
          log DEBUG (ReadingMetadataFile f);;
          try_except (json_load c)
            (fun e => match e with
                      | JSONDecodeError =>
                          Some (log DEBUG (MetadataFileCorrupted f);;
                                raise JSONDecodeError)
                      | _ => None
                      end)
      | None =>
          metadata <-
            try_except
              (log DEBUG RequestingMetadata;;
               call (GetCurrent workspace_id) get_current)
              (fun e => match e with
                        | TFCHTTPNotFound =>
                            Some (log DEBUG NoStoredStateFound;;
                                  raise TFCHTTPNotFound)
                        | _ => None
                        end);;
          when (truthy metadata_file && negb dry_run)
            (log DEBUG (WritingMetadataFile f);;
             call (WriteMetadata f metadata) (Ok tt);;
             modify (put_file f (Json metadata)));;
          ret metadata
      end
  | None =>
      metadata <-
        try_except
          (log DEBUG RequestingMetadata;;
           call (GetCurrent workspace_id) get_current)
          (fun e => match e with
                    | TFCHTTPNotFound =>
                        Some (log DEBUG NoStoredStateFound;;
                              raise TFCHTTPNotFound)
                    | _ => None
                    end);;
      ret metadata
  end.

(** [answer] is what [requests.get] gives. *)
Definition get_tfstate_content (download_url token : str)
    (tfstate_file : option str) (dry_run : bool) (answer : result response)
  : M bytes :=
  log DEBUG (DownloadingTfstate download_url);;
  response <- call (HttpGet download_url token) answer;;
  when (negb (status_code response =? requests_codes_ok)%Z)
    (raise_for_status response);;
  match tfstate_file with
  | Some f =>
      when (truthy tfstate_file && negb dry_run)
        (log DEBUG (WritingTfstateFile f);;
         call (WriteTfstate f (content response)) (Ok tt))
  | None => ret tt
  end;;
  ret (content response).

Definition upload_to_s3 (bucket key : str) (data : bytes) (dry_run : bool)
    (answer : result unit) : M unit :=
  if negb dry_run
  then log DEBUG (UploadingTfstate bucket key);;
       call (Upload bucket key data) answer
  else log DEBUG (WouldUploadTfstate bucket key).

(* ================================================================== *)
(** ** [main] *)

(** [not args.skip_lock and not args.dry_run] *)
Definition locking (a : args) : bool := negb (skip_lock a) && negb (dry_run a).

(** The inner [try] of the loop body: metadata from the cache or the service,
    and the fall-back when the cached file does not parse. *)
Definition fetch_metadata (a : args) (ws : workspace) (r : responses)
  : M metadata :=
  try_except
    (if nonempty (cache_dir a)
     then get_tfstate_metadata (ws_id ws)
            (Some (path_join (cache_dir a) (ws_name ws ++ lit ".meta.json")))
            (dry_run a) (get_current_response r)
     else get_tfstate_metadata (ws_id ws) None (dry_run a)
            (get_current_response r))
    (fun e => match e with
              | JSONDecodeError =>
                  Some (log WARNING (CorruptedFallingBack (ws_name ws));;
                        get_tfstate_metadata (ws_id ws) None (dry_run a)
                          (fallback_get_current_response r))
              | _ => None
              end).

(** The body of the outer [try]. *)
Definition try_body (env : environ) (a : args) (ws : workspace) (r : responses)
  : M bytes :=
  when (locking a)
    (log INFO (LockingWorkspace (ws_name ws));;
     call (Lock (ws_id ws)) (lock_response r));;
  log INFO (FetchingMetadata (ws_name ws));;
  metadata <- fetch_metadata a ws r;;
  tfstate_url <- match hosted_state_download_url metadata with
                 | Some u => ret u
                 | None => raise KeyError
                 end;;
  log INFO (FetchingTfstate (ws_name ws));;
  if nonempty (cache_dir a)
  then get_tfstate_content tfstate_url (TFC_TOKEN env)
         (Some (path_join (cache_dir a) (ws_name ws ++ lit ".tfstate")))
         (dry_run a) (download_response r)
  else get_tfstate_content tfstate_url (TFC_TOKEN env) None
         (dry_run a) (download_response r).

(** [if ws[0] not in skipped_workspaces: skipped_workspaces.append(ws[0])] *)
Definition skip (ws : workspace) : M unit :=
  skipped <- get skipped_workspaces;;
  when (negb (existsb (workspace_eqb ws) skipped))
    (modify (set_skipped (skipped ++ [ws]))).

(** The [except] clauses of the outer [try]; [None] as a value stands for
    [continue]. *)
Definition except_clauses (a : args) (ws : workspace) (r : responses) (e : exn)
  : option (M (option bytes)) :=
  match e with
  | KeyboardInterrupt =>
      Some (when (locking a)
              (log ERROR (Interrupted (ws_name ws));;
               call (Unlock (ws_id ws)) (interrupt_unlock_response r));;
            raise (SystemExit 130))
  | TFCHTTPNotFound =>
      Some (log WARNING (NoStoredStates (ws_name ws));; ret None)
  | TFCHTTPConflict =>
      Some (log WARNING (LockedSkipping (ws_name ws));;
            skip ws;;
            ret None)
  | _ => None
  end.

Definition finally_clause (a : args) (ws : workspace) (r : responses) : M unit :=
  when (locking a)
    (log INFO (UnlockingWorkspace (ws_name ws));;
     try_except (call (Unlock (ws_id ws)) (unlock_response r))
       (fun e => match e with
                 | TFCHTTPConflict => Some (log DEBUG IgnoringError)
                 | _ => None
                 end)).

(** The whole [try] statement: the state bytes, or [None] to continue with
    the next workspace. *)
Definition fetch_state (env : environ) (a : args) (ws : workspace)
    (r : responses) : M (option bytes) :=
  try_finally
    (try_except (tfstate <- try_body env a ws r;; ret (Some tfstate))
                (except_clauses a ws r))
    (finally_clause a ws r).

(** What follows the [try] statement.  The set of known names is iterated in
    the order it is written in; no other order gives another key. *)
Definition upload_state (a : args) (got_ws : nat) (ws : workspace)
    (tfstate : bytes) (r : responses) : M unit :=
  let s3_object_key := s3_object_key (ws_name ws) WELL_KNOWN_WORKSPACES in
  upload_to_s3 (s3_bucket_name a) s3_object_key tfstate (dry_run a)
    (upload_response r);;
  modify (set_uploaded (if negb (dry_run a) then got_ws else 0));;
  (if negb (dry_run a)
   then log INFO (UploadedTfstate (ws_name ws) (s3_bucket_name a) s3_object_key)
   else log INFO (WouldHaveUploadedTfstate (ws_name ws) (s3_bucket_name a)
                    s3_object_key));;
  total <- get total_ws_count;;
  log INFO (Processed got_ws total).

(** One turn of the loop, past the limit test. *)
Definition process (env : environ) (a : args) (got_ws : nat) (it : item)
  : M unit :=
  modify (set_total (it_total it));;
  tfstate <- fetch_state env a (it_ws it) (it_env it);;
  match tfstate with
  | None => ret tt
  | Some data => upload_state a got_ws (it_ws it) data (it_env it)
  end.

(** [for got_ws, ws in enumerate(workspaces, start=1)] *)
Fixpoint loop (env : environ) (a : args) (got_ws : nat) (workspaces : list item)
  : M unit :=
  match workspaces with
  | [] => ret tt
  | it :: rest =>
      if (limit_workspaces a =? 0)%Z
      then process env a got_ws it;; loop env a (S got_ws) rest
      else if (Z.of_nat got_ws >? limit_workspaces a)%Z
           then log INFO (ReachedLimit (limit_workspaces a))
           else process env a got_ws it;; loop env a (S got_ws) rest
  end.

Definition skipped_workspaces_file (env : environ) : str :=
  path_join (THIS_DIR env) (lit "skipped_workspaces.json").

(** Before the loop: the dry-run banner and the cache directory. *)
Definition setup (env : environ) (a : args) : M unit :=
  when (dry_run a) (log INFO DryRunMode);;
  when (nonempty (cache_dir a) && negb (dry_run a))
    (created <- create_tfstate_cache env (cache_dir a);;
     when created (log INFO (CachingTo (abspath env (cache_dir a))))).

(** After the loop: the skip list is saved and the counters are reported. *)
Definition report (env : environ) (a : args) : M unit :=
  skipped <- get skipped_workspaces;;
  when (nonempty skipped)
    (log DEBUG (SkippedWorkspaces (map ws_name skipped));;
     log INFO (SavingSkipped (skipped_workspaces_file env));;
     call (WriteSkipped (skipped_workspaces_file env) skipped) (Ok tt));;
  uploaded <- get uploaded_ws_count;;
  total <- get total_ws_count;;
  skipped <- get skipped_workspaces;;
  when (stats a)
    (log INFO (StatsTotal total);;
     log INFO (StatsUploaded uploaded);;
     log INFO (StatsSkipped (length skipped))).

Definition main (env : environ) (a : args) (workspaces : list item) : M unit :=
  setup env a;;
  loop env a 1 workspaces;;
  report env a.

(** A run of the script from a fresh process. *)
Definition run (env : environ) (a : args) (workspaces : list item)
    (fs : list (str * file_content)) : result unit * state :=
  main env a workspaces (initial_state fs).

(* ================================================================== *)
(** ** Observations on a run *)

(** Calls that change something outside the process. *)
Definition is_lock (e : effect) : bool :=
  match e with Lock _ => true | _ => false end.
Definition is_unlock (e : effect) : bool :=
  match e with Unlock _ => true | _ => false end.
Definition is_upload (e : effect) : bool :=
  match e with Upload _ _ _ => true | _ => false end.
Definition is_cache_write (e : effect) : bool :=
  match e with
  | Mkdir _ | WriteMetadata _ _ | WriteTfstate _ _ => true
  | _ => false
  end.
Definition is_file_write (e : effect) : bool :=
  match e with
  | Mkdir _ | WriteMetadata _ _ | WriteTfstate _ _ | WriteSkipped _ _ => true
  | _ => false
  end.

(** Log entries that announce or report a lock, an unlock, an upload or a
    file written. *)
Definition describes_upload (m : message) : bool :=
  match m with
  | UploadingTfstate _ _ | WouldUploadTfstate _ _
  | UploadedTfstate _ _ _ | WouldHaveUploadedTfstate _ _ _ => true
  | _ => false
  end.

(** Entries that announce a lock, an unlock, or a write to the cache (the
    directory made, a metadata or state file written): the script has no
    dry-run wording for them.  The entries about reading a cached file
    ([ReadingMetadataFile], [MetadataFileCorrupted], [CorruptedFallingBack])
    are not among them: reading is done, and logged, in a dry run too. *)
Definition describes_lock_or_cache_write (m : message) : bool :=
  match m with
  | LockingWorkspace _ | UnlockingWorkspace _ | Interrupted _
  | WritingMetadataFile _ | WritingTfstateFile _ | CachingTo _ => true
  | _ => false
  end.

Definition describes_action (m : message) : bool :=
  match m with
  | SavingSkipped _ => true
  | _ => describes_lock_or_cache_write m || describes_upload m
  end.

Definition count_log (p : message -> bool) (l : list log_entry) : nat :=
  length (filter (fun e => p (snd e)) l).

Definition level_no (l : level) : nat :=
  match l with
  | DEBUG => 10
  | INFO => 20
  | WARNING => 30
  | ERROR => 40
  end.

(** The entries a handler set to [threshold] lets through. *)
Definition emitted (threshold : level) (l : list log_entry) : list log_entry :=
  filter (fun e => level_no threshold <=? level_no (fst e)) l.

Definition count_effects (p : effect -> bool) (s : state) : nat :=
  length (filter p (effects s)).

(** The same command line with [--dry-run]. *)
Definition dry_of (a : args) : args :=
  mkArgs (s3_bucket_name a) (skip_lock a) (cache_dir a) (limit_workspaces a)
         true (stats a).

(** How often [ws] occurs in a list, with the equality [in] uses. *)
Definition occurrences (ws : workspace) (l : list workspace) : nat :=
  length (filter (workspace_eqb ws) l).

(** The turn of the loop that meets the [i]-th element (from 0) is number
    [i + 1]; it is processed unless the limit stops the loop first. *)
Definition within_limit (a : args) (i : nat) : Prop :=
  (limit_workspaces a = 0 \/ Z.of_nat (S i) <= limit_workspaces a)%Z.

(* ================================================================== *)
(** ** Specifications of steps *)

(** [post m R E]: however [m] ends, [R] relates the state before it to the
    state after it, and an exception it raises is one of [E]. *)
Definition post {A} (m : M A) (R : state -> state -> Prop) (E : exn -> bool)
  : Prop :=
  forall s, R s (snd (m s)) /\ forall e, fst (m s) = Raise e -> E e = true.

(** The skip list only grows and stays free of duplicates, every outside
    call made satisfies [allowed] and every message logged satisfies
    [logged]. *)
Definition grows (allowed : effect -> bool) (logged : message -> bool)
    (s s' : state) : Prop :=
  incl (skipped_workspaces s) (skipped_workspaces s')
  /\ (NoDup (skipped_workspaces s) -> NoDup (skipped_workspaces s'))
  /\ (exists l, effects s' = effects s ++ l /\ forallb allowed l = true)
  /\ (exists l, LOG s' = LOG s ++ l
                /\ forallb (fun e => logged (snd e)) l = true).

Definition any_message (m : message) : bool := true.

(** What a dry run may log: nothing about locks or cache writes, and the
    uploads in the conditional only. *)
Definition dry_logged (m : message) : bool :=
  negb (describes_lock_or_cache_write m)
  && match m with
     | UploadingTfstate _ _ | UploadedTfstate _ _ _ => false
     | _ => true
     end.

(** Calls that only read from the service. *)
Definition read_only (e : effect) : bool :=
  match e with
  | GetCurrent _ | HttpGet _ _ => true
  | _ => false
  end.

(** The skip list is untouched and every outside call made only reads. *)
Definition quiet (s s' : state) : Prop :=
  skipped_workspaces s' = skipped_workspaces s
  /\ exists l, effects s' = effects s ++ l /\ forallb read_only l = true.

Definition not_skipped_write (e : effect) : bool :=
  match e with
  | WriteSkipped _ _ => false
  | _ => true
  end.

Definition any_exn (e : exn) : bool := true.

Definition no_exn (e : exn) : bool := false.

Definition not_conflict (e : exn) : bool :=
  match e with
  | TFCHTTPConflict => false
  | _ => true
  end.

(** No answer of the service to a metadata or state request is a Conflict. *)
Definition conflict_free (r : responses) : Prop :=
  get_current_response r <> Raise TFCHTTPConflict
  /\ fallback_get_current_response r <> Raise TFCHTTPConflict
  /\ download_response r <> Raise TFCHTTPConflict.

(** Number of entries satisfying [p] that a handler at [threshold] emits. *)
Definition tally (p : message -> bool) (threshold : level)
    (l : list log_entry) : nat :=
  count_log p (emitted threshold l).

(** Two states that a live run and a dry run may be in at the same point:
    equal but for the uploaded counter, the calls made and the wording of the
    log, with as many upload entries at every level. *)
Definition alike (s1 s2 : state) : Prop :=
  skipped_workspaces s1 = skipped_workspaces s2
  /\ total_ws_count s1 = total_ws_count s2
  /\ files s1 = files s2
  /\ forall threshold,
       tally describes_upload threshold (LOG s1)
       = tally describes_upload threshold (LOG s2).

(** [rel m1 m2]: from alike states, [m1] and [m2] end the same way in alike
    states. *)
Definition rel {A} (m1 m2 : M A) : Prop :=
  forall s1 s2, alike s1 s2 ->
    fst (m1 s1) = fst (m2 s2) /\ alike (snd (m1 s1)) (snd (m2 s2)).

(** The calls only a live run makes succeed: the upload, and with locking
    the lock and the unlock (an unlock answered by Conflict is ignored). *)
Definition calls_succeed (a : args) (r : responses) : Prop :=
  upload_response r = Ok tt
  /\ (skip_lock a = false ->
      lock_response r = Ok tt
      /\ interrupt_unlock_response r = Ok tt
      /\ (unlock_response r = Ok tt
          \/ unlock_response r = Raise TFCHTTPConflict)).

(** The handler tables of two [try] statements agree. *)
Definition handlers_rel {A} (h1 h2 : exn -> option (M A)) : Prop :=
  forall e, match h1 e, h2 e with
            | Some k1, Some k2 => rel k1 k2
            | None, None => True
            | _, _ => False
            end.

(** A relation between the state before and the state after that the
    bookkeeping steps respect, together with the outside calls it admits. *)
Class Frame (R : state -> state -> Prop) (allowed : effect -> bool)
    (logged : message -> bool) : Prop := {
  frame_refl : forall s, R s s;
  frame_trans : forall s1 s2 s3, R s1 s2 -> R s2 s3 -> R s1 s3;
  frame_log : forall l m s, logged m = true -> R s (add_log (l, m) s);
  frame_total : forall n s, R s (set_total n s);
  frame_uploaded : forall n s, R s (set_uploaded n s);
  frame_put_file : forall p c s, R s (put_file p c s);
  frame_effect : forall e s, allowed e = true -> R s (add_effect e s)
}.

(** An HTTP error was raised. *)
Definition http_error {A} (r : result A) : bool :=
  match r with
  | Raise (HTTPError _) => true
  | _ => false
  end.

(* ================================================================== *)
(** ** Sample data *)

Module Sample.

(** The script is started in its own directory. *)
Definition from_this_dir (path : str) : str :=
  if starts_with_slash path then path else lit "/opt/migration/" ++ path.

Definition env : environ :=
  mkEnviron (lit "/opt/migration") (lit "tfc-token") false from_this_dir.

(** The same with the cache directory left by an earlier run. *)
Definition env_with_cache : environ :=
  mkEnviron (lit "/opt/migration") (lit "tfc-token") true from_this_dir.

Definition meta (url : string) : metadata := mkMetadata (Some (lit url)) [].

(** Every call succeeds. *)
Definition all_ok (url : string) (body : bytes) : responses :=
  mkResponses (Ok tt) (Ok (meta url)) (Ok (meta url))
              (Ok (mkResponse 200 body)) (Ok tt) (Ok tt) (Ok tt).

(** The workspace has no stored state. *)
Definition no_state : responses :=
  mkResponses (Ok tt) (Raise TFCHTTPNotFound) (Raise TFCHTTPNotFound)
              (Ok (mkResponse 200 [])) (Ok tt) (Ok tt) (Ok tt).

(** The workspace is locked by someone else. *)
Definition locked (url : string) : responses :=
  mkResponses (Raise TFCHTTPConflict) (Ok (meta url)) (Ok (meta url))
              (Ok (mkResponse 200 [])) (Ok tt) (Raise TFCHTTPConflict) (Ok tt).

Definition app_dev : workspace := mkWorkspace (lit "ws-1") (lit "app-dev") [].
Definition api_prod : workspace := mkWorkspace (lit "ws-2") (lit "api-prod") [].

Definition live : args := mkArgs (lit "states") false [] 0 false true.
Definition dry : args := mkArgs (lit "states") false [] 0 true true.
Definition cached : args := mkArgs (lit "states") true (lit "cache") 0 false true.

End Sample.

(* ================================================================== *)
(** ** Further observations *)

(** The same command line with another [--limit-workspaces]. *)
Definition with_limit (limit : Z) (a : args) : args :=
  mkArgs (s3_bucket_name a) (skip_lock a) (cache_dir a) limit (dry_run a)
         (stats a).

Definition is_conflict {A} (x : result A) : bool :=
  match x with
  | Raise TFCHTTPConflict => true
  | _ => false
  end.

(** Some call made inside the [try] of a turn is answered by Conflict. *)
Definition answers_conflict (r : responses) : bool :=
  is_conflict (lock_response r)
  || is_conflict (get_current_response r)
  || is_conflict (fallback_get_current_response r)
  || is_conflict (download_response r).

(** The skip list gains at most [ws]. *)
Definition adds (ws : workspace) (s s' : state) : Prop :=
  forall w, In w (skipped_workspaces s') ->
            In w (skipped_workspaces s) \/ w = ws.

(** The skip list is untouched. *)
Definition keeps (s s' : state) : Prop :=
  skipped_workspaces s' = skipped_workspaces s.

(** The skip list gains only workspaces satisfying [W]. *)
Definition within (W : workspace -> Prop) (s s' : state) : Prop :=
  forall w, In w (skipped_workspaces s') ->
            In w (skipped_workspaces s) \/ W w.

Definition any_effect (e : effect) : bool := true.

Definition no_upload (e : effect) : bool := negb (is_upload e).

(** What [try_body] does once past the lock. *)
Definition after_lock (env : environ) (a : args) (ws : workspace)
    (r : responses) : M bytes :=
  log INFO (FetchingMetadata (ws_name ws));;
  metadata <- fetch_metadata a ws r;;
  tfstate_url <- match hosted_state_download_url metadata with
                 | Some u => ret u
                 | None => raise KeyError
                 end;;
  log INFO (FetchingTfstate (ws_name ws));;
  if nonempty (cache_dir a)
  then get_tfstate_content tfstate_url (TFC_TOKEN env)
         (Some (path_join (cache_dir a) (ws_name ws ++ lit ".tfstate")))
         (dry_run a) (download_response r)
  else get_tfstate_content tfstate_url (TFC_TOKEN env) None
         (dry_run a) (download_response r).

(* ================================================================== *)
(** ** Enumeration of the workspaces *)

(** One answer of [tfc.workspaces.list]: [response["data"]] and, under
    [response["meta"]["pagination"]], ["next-page"] and ["total-count"]. *)
Record listing := mkListing {
  data : list workspace;
  next_page : option nat;
  total_count : nat
}.

(** Truth value of ["next-page"]: [null] and [0] are false. *)
Definition has_next (l : listing) : bool :=
  match next_page l with
  | Some (S _) => true
  | _ => false
  end.

(** [get_tfc_workspaces], from page [page] on: the pairs it yields, in order.
    [list_page] is the service; the [while True] loop runs for as long as the
    service announces a next page, so the model takes [fuel], one unit per
    request, and answers [None] when it runs out. *)
Fixpoint get_tfc_workspaces (list_page : nat -> listing) (fuel page : nat)
  : option (list (workspace * nat)) :=
  match fuel with
  | 0 => None
  | S fuel' =>
      let response := list_page page in
      let yielded :=
        map (fun workspace => (workspace, total_count response))
            (data response) in
      if negb (has_next response) then Some yielded
      else match get_tfc_workspaces list_page fuel' (page + 1) with
           | Some more => Some (yielded ++ more)
           | None => None
           end
  end.

(** The enumeration from a retry file:
    [((ws, len(retry_workspaces)) for ws in retry_workspaces)]. *)
Definition retry_enumeration (retry_workspaces : list workspace)
  : list (workspace * nat) :=
  map (fun ws => (ws, length retry_workspaces)) retry_workspaces.

(* ================================================================== *)
(** ** [parse_explorer_workspaces_csv.py] *)

(** [ws_dict]: a [defaultdict(list)], kept in insertion order. *)
Definition ws_dict := list (str * list str).

Fixpoint dict_get (k : str) (d : ws_dict) : option (list str) :=
  match d with
  | [] => None
  | (k', v) :: d' => if str_eqb k' k then Some v else dict_get k d'
  end.

(** [ws_dict[k].append(x)] *)
Fixpoint dict_append (k x : str) (d : ws_dict) : ws_dict :=
  match d with
  | [] => [(k, [x])]
  | (k', v) :: d' =>
      if str_eqb k' k then (k', v ++ [x]) :: d'
      else (k', v) :: dict_append k x d'
  end.

(** [workspace if workspace else "default"] *)
Definition group_of (workspace : str) : str :=
  match workspace with
  | [] => lit "default"
  | _ => workspace
  end.

(** One turn of the loop over the rows; [name] is [row["workspace_name"]]. *)
Definition add_row (d : ws_dict) (name : str) : ws_dict :=
  let '(state_name, workspace) :=
    parse_prefixed_workspace name WELL_KNOWN_WORKSPACES in
  dict_append (group_of workspace) state_name d.

Definition group_rows (names : list str) : ws_dict :=
  fold_left add_row names [].

(** The lines of the text output: group, tab, state name. *)
Definition text_lines (d : ws_dict) : list (str * str) :=
  flat_map (fun '(ws, states) => map (fun state => (ws, state)) states) d.

(** The group and the state name a row goes to. *)
Definition row_group (name : str) : str :=
  group_of (snd (parse_prefixed_workspace name WELL_KNOWN_WORKSPACES)).

Definition row_state (name : str) : str :=
  fst (parse_prefixed_workspace name WELL_KNOWN_WORKSPACES).

(** What [get_tfc_workspaces] yields from one page. *)
Definition page_pairs (list_page : nat -> listing) (page : nat)
  : list (workspace * nat) :=
  map (fun workspace => (workspace, total_count (list_page page)))
      (data (list_page page)).

(** Every call of a live turn with locking succeeds. *)
Definition succeeds (r : responses) : Prop :=
  lock_response r = Ok tt
  /\ unlock_response r = Ok tt
  /\ upload_response r = Ok tt
  /\ exists m u resp,
       get_current_response r = Ok m
       /\ hosted_state_download_url m = Some u
       /\ download_response r = Ok resp
       /\ ((400 <=? status_code resp) && (status_code resp <? 600))%Z = false.
(* ================================================================== *)
(** * Theorems *)

Example parse_docstring :
  parse_prefixed_workspace (lit "backend_svc-dev") WELL_KNOWN_WORKSPACES
  = (lit "backend_svc", lit "dev").
Proof. reflexivity. Qed.

Example parse_mydevops :
  parse_prefixed_workspace (lit "mydevops") WELL_KNOWN_WORKSPACES
  = (lit "mydevops", []).
Proof. reflexivity. Qed.

(* ------------------------------------------------------------------ *)
(** ** Characters and strings *)

Lemma str_eqb_eq (a b : str) : str_eqb a b = true <-> a = b.
Proof.
  revert b; induction a as [|x a IH]; intros [|y b]; simpl;
    try (split; [discriminate | congruence]); try tauto.
  rewrite andb_true_iff, Ascii.eqb_eq, IH.
  split; [intros [-> ->]; reflexivity | intros H; inversion H; auto].
Qed.

Lemma str_eqb_refl (a : str) : str_eqb a a = true.
Proof. apply str_eqb_eq; reflexivity. Qed.

Lemma ieq_refl (c : ascii) : ieq c c = true.
Proof. apply Ascii.eqb_refl. Qed.

Lemma ieq_lower (a b : ascii) : ieq a b = true <-> lower a = lower b.
Proof. apply Ascii.eqb_eq. Qed.

Lemma is_alnum_lower (c : ascii) : is_alnum (lower c) = is_alnum c.
Proof. destruct c as [[] [] [] [] [] [] [] []]; reflexivity. Qed.

Lemma is_word_lower (c : ascii) : is_word (lower c) = is_word c.
Proof. destruct c as [[] [] [] [] [] [] [] []]; reflexivity. Qed.

Lemma ieq_is_word (a b : ascii) : ieq a b = true -> is_word b = is_word a.
Proof.
  intros H; apply ieq_lower in H.
  rewrite <- (is_word_lower a), <- (is_word_lower b), H; reflexivity.
Qed.

Lemma is_alnum_is_word (c : ascii) : is_alnum c = true -> is_word c = true.
Proof. unfold is_word; intros ->; reflexivity. Qed.

Lemma drop_last_app (p t : str) : drop_last (length t) (p ++ t) = p.
Proof.
  unfold drop_last. rewrite length_app.
  replace (length p + length t - length t) with (length p + 0) by lia.
  rewrite firstn_app_2; simpl; apply app_nil_r.
Qed.

Lemma drop_last_short (k : nat) (name : str) :
  length name <= k -> drop_last k name = [].
Proof.
  unfold drop_last; intros H.
  replace (length name - k) with 0 by lia; reflexivity.
Qed.

(* ------------------------------------------------------------------ *)
(** ** What the pattern matches *)

Module RegexFacts.
Import Regex.

Lemma literal_refl (ws r : str) : literal ws (ws ++ r) = true.
Proof. induction ws as [|c ws IH]; simpl; [|rewrite ieq_refl]; auto. Qed.

(** The literal consumes exactly [length ws] characters, equal to [ws] up to
    case. *)
Lemma literal_inv (ws text : str) :
  literal ws text = true ->
  exists t r, text = t ++ r /\ length t = length ws
              /\ map lower t = map lower ws.
Proof.
  revert text; induction ws as [|c ws IH]; intros text H.
  - exists [], text; auto.
  - destruct text as [|d text]; [discriminate|]. simpl in H.
    apply andb_true_iff in H as [Hc H].
    destruct (IH _ H) as (t & r & -> & Hl & Hm).
    exists (d :: t), r; simpl. apply ieq_lower in Hc.
    repeat split; congruence.
Qed.

Lemma literal_intro (ws t r : str) :
  map lower t = map lower ws -> literal ws (t ++ r) = true.
Proof.
  revert t; induction ws as [|c ws IH]; intros [|d t] H; simpl in *;
    try discriminate; auto.
  inversion H. apply andb_true_iff; split; [apply ieq_lower; auto | auto].
Qed.

Lemma search_iff (ws name : str) :
  search ws name = true
  <-> exists i, i <= length name /\ match_at ws name i = true.
Proof.
  unfold search. rewrite existsb_exists. split.
  - intros (i & Hin & H). apply in_seq in Hin. exists i; split; [lia | auto].
  - intros (i & Hi & H). exists i; split; [apply in_seq; lia | auto].
Qed.

Lemma skipn_split (i : nat) (name : str) :
  i <= length name ->
  exists p, name = p ++ skipn i name /\ length p = i.
Proof.
  intros Hi. exists (firstn i name). split.
  - symmetry; apply firstn_skipn.
  - apply firstn_length_le; auto.
Qed.

Lemma dollar_inv (name : str) (j : nat) :
  dollar name j = true ->
  j = length name \/ (S j = length name /\ nth_error name j = Some newline).
Proof.
  unfold dollar. rewrite orb_true_iff, andb_true_iff, !Nat.eqb_eq.
  intros [H | [H1 H2]]; [left; auto | right; split; auto].
  destruct (nth_error name j) as [c|]; [|discriminate].
  apply Ascii.eqb_eq in H2; congruence.
Qed.

(** A match decomposes the name into what precedes it, the matched text and an
    optional final newline. *)
Lemma search_inv (ws name : str) :
  search ws name = true ->
  exists p t e,
    name = p ++ t ++ e
    /\ map lower t = map lower ws
    /\ (e = [] \/ e = [newline])
    /\ lookbehind name (length p) = true.
Proof.
  intros H. apply search_iff in H as (i & Hi & H).
  unfold match_at in H.
  apply andb_true_iff in H as [H Hd].
  apply andb_true_iff in H as [H _].
  apply andb_true_iff in H as [Hb Hl].
  destruct (skipn_split i name Hi) as (p & Hp & Hlen).
  destruct (literal_inv _ _ Hl) as (t & e & He & Hlt & Hm).
  exists p, t, e. rewrite <- He, Hlen. repeat split; auto.
  assert (Hn : length name = i + length ws + length e).
  { rewrite Hp at 1. rewrite length_app, He, length_app. lia. }
  apply dollar_inv in Hd as [Hd | [Hd Hnl]].
  - left. destruct e; [reflexivity | simpl in Hn; lia].
  - right. destruct e as [|c [|c' e]]; simpl in Hn; try lia.
    rewrite Hp, He in Hnl. rewrite <- Hlen, <- Hlt in Hnl.
    rewrite nth_error_app2 in Hnl by lia.
    rewrite nth_error_app2 in Hnl by lia.
    replace (length p + length t - length p - length t) with 0 in Hnl by lia.
    simpl in Hnl. congruence.
Qed.

End RegexFacts.

Module KeyFacts.
Import Regex RegexFacts.

Lemma map_lower_last (t ws' : str) (c : ascii) :
  map lower t = map lower (ws' ++ [c]) ->
  exists t' d, t = t' ++ [d] /\ lower d = lower c /\ length t' = length ws'.
Proof.
  intros H.
  assert (Hne : t <> []) by (intros ->; destruct ws'; discriminate).
  destruct (exists_last Hne) as (t' & d & ->).
  rewrite !map_app in H; simpl in H.
  apply app_inj_tail in H as [H1 H2].
  exists t', d; repeat split; auto.
  apply (f_equal (@length ascii)) in H1. rewrite !length_map in H1; auto.
Qed.

(** A suffix made of letters and digits matches wherever it ends the name and
    is not preceded by a letter or digit. *)
Lemma match_at_end (ws p t : str) :
  ws <> [] -> forallb is_alnum ws = true ->
  map lower t = map lower ws ->
  lookbehind (p ++ t) (length p) = true ->
  match_at ws (p ++ t) (length p) = true.
Proof.
  intros Hne Hal Hm Hb. unfold match_at. rewrite Hb; simpl.
  rewrite skipn_app, skipn_all, Nat.sub_diag; simpl.
  rewrite <- (app_nil_r t) at 1. rewrite (literal_intro ws t [] Hm); simpl.
  destruct (exists_last Hne) as (ws' & c & ->).
  destruct (map_lower_last _ _ _ Hm) as (t' & d & -> & Hd & Hl).
  assert (Hj : length p + length (ws' ++ [c]) = S (length (p ++ t'))).
  { rewrite !length_app; simpl; lia. }
  assert (Hn : length (p ++ t' ++ [d]) = S (length (p ++ t'))).
  { rewrite !length_app; simpl; lia. }
  assert (H1 : nth_error (p ++ t' ++ [d]) (length (p ++ t')) = Some d).
  { rewrite app_assoc, nth_error_app2 by lia. rewrite Nat.sub_diag; reflexivity. }
  assert (H2 : nth_error (p ++ t' ++ [d]) (S (length (p ++ t'))) = None).
  { apply nth_error_None; lia. }
  rewrite Hj. unfold word_boundary, dollar, word_at.
  rewrite H1, H2, Hn, Nat.eqb_refl; simpl. rewrite andb_true_r, xorb_false_r.
  rewrite forallb_app in Hal; simpl in Hal.
  apply andb_true_iff in Hal as [_ Hc]. rewrite andb_true_r in Hc.
  rewrite <- is_word_lower, Hd, is_word_lower, (is_alnum_is_word _ Hc).
  reflexivity.
Qed.

Lemma search_at_end (ws p t : str) :
  ws <> [] -> forallb is_alnum ws = true ->
  map lower t = map lower ws ->
  lookbehind (p ++ t) (length p) = true ->
  search ws (p ++ t) = true.
Proof.
  intros; apply search_iff; exists (length p); split.
  - rewrite length_app; lia.
  - apply match_at_end; auto.
Qed.

(** Read backwards and folded to lower case, a matching name starts with the
    reversed suffix, after the optional final newline. *)
Lemma search_rev (ws name : str) :
  search ws name = true ->
  exists r, map lower (rev name) = rev (map lower ws) ++ r
            \/ map lower (rev name) = newline :: rev (map lower ws) ++ r.
Proof.
  intros H. destruct (search_inv _ _ H) as (p & t & e & -> & Hm & He & _).
  exists (map lower (rev p)).
  rewrite !rev_app_distr, !map_app, <- app_assoc, !map_rev, Hm.
  destruct He as [-> | ->]; [left | right]; reflexivity.
Qed.

Lemma well_known_cases (P : str -> Prop) :
  P (lit "default") -> P (lit "dev") -> P (lit "stg") -> P (lit "prod") ->
  forall ws, In ws WELL_KNOWN_WORKSPACES -> P ws.
Proof.
  intros H1 H2 H3 H4 ws [<- | [<- | [<- | [<- | []]]]]; assumption.
Qed.

(** The four suffixes exclude one another: no name matches two of them. *)
Lemma well_known_exclusive (name w1 w2 : str) :
  In w1 WELL_KNOWN_WORKSPACES -> In w2 WELL_KNOWN_WORKSPACES ->
  search w1 name = true -> search w2 name = true -> w1 = w2.
Proof.
  intros H1 H2; revert w2 H2; revert w1 H1.
  apply (well_known_cases (fun w1 => forall w2, In w2 _ -> _ -> _ -> w1 = w2));
    apply (well_known_cases (fun w2 => _ -> _ -> _ = w2));
    intros S1 S2; try reflexivity;
    destruct (search_rev _ _ S1) as (r1 & [E1 | E1]);
    destruct (search_rev _ _ S2) as (r2 & [E2 | E2]);
    rewrite E1 in E2; vm_compute in E2; discriminate E2.
Qed.

Lemma well_known_nonempty_alnum (ws : str) :
  In ws WELL_KNOWN_WORKSPACES -> ws <> [] /\ forallb is_alnum ws = true.
Proof.
  revert ws; apply well_known_cases; split; (discriminate || reflexivity).
Qed.

Lemma well_known_NoDup : NoDup WELL_KNOWN_WORKSPACES.
Proof.
  repeat constructor; simpl; intuition discriminate.
Qed.

(** With at most one matching suffix the iteration order is irrelevant. *)
Lemma parse_first_match (name w : str) (l : list str) :
  In w l -> search w name = true ->
  (forall w', In w' l -> search w' name = true -> w' = w) ->
  parse_prefixed_workspace name l = (drop_last (length w + 1) name, w).
Proof.
  induction l as [|x l IH]; intros Hin Hs Hu; [destruct Hin|].
  simpl. destruct (search x name) eqn:Hx.
  - rewrite (Hu x (or_introl eq_refl) Hx); reflexivity.
  - destruct Hin as [-> | Hin]; [congruence|].
    apply IH; auto. intros w' Hw'; apply Hu; right; auto.
Qed.

Lemma parse_no_match (name : str) (l : list str) :
  (forall w, In w l -> search w name = false) ->
  parse_prefixed_workspace name l = (name, []).
Proof.
  induction l as [|x l IH]; intros H; [reflexivity|].
  simpl. rewrite (H x (or_introl eq_refl)). apply IH.
  intros w Hw; apply H; right; auto.
Qed.

Lemma parse_order_irrelevant (name : str) (order : list str) :
  Permutation order WELL_KNOWN_WORKSPACES ->
  parse_prefixed_workspace name order
  = parse_prefixed_workspace name WELL_KNOWN_WORKSPACES.
Proof.
  intros Hp.
  destruct (existsb (fun w => search w name) WELL_KNOWN_WORKSPACES) eqn:He.
  - apply existsb_exists in He as (w & Hw & Hs).
    assert (Hu : forall w', In w' WELL_KNOWN_WORKSPACES ->
                            search w' name = true -> w' = w).
    { intros w' Hw' Hs'; apply (well_known_exclusive name); auto. }
    rewrite (parse_first_match name w WELL_KNOWN_WORKSPACES Hw Hs Hu).
    apply parse_first_match; auto.
    + eapply Permutation_in; [symmetry; eassumption | auto].
    + intros w' Hw'; apply Hu. eapply Permutation_in; eassumption.
  - assert (Hn : forall w, In w WELL_KNOWN_WORKSPACES -> search w name = false).
    { intros w Hw. destruct (search w name) eqn:Hs; auto.
      assert (existsb (fun w => search w name) WELL_KNOWN_WORKSPACES = true)
        by (apply existsb_exists; eauto).
      congruence. }
    rewrite !parse_no_match; auto.
    intros w Hw; apply Hn. eapply Permutation_in; eassumption.
Qed.

End KeyFacts.

(* ------------------------------------------------------------------ *)
(** ** Claims on the key derivation *)

Module KeyDeriver.
Import Regex RegexFacts KeyFacts.

Lemma search_dash_suffix (P S : str) :
  In S WELL_KNOWN_WORKSPACES -> search S (P ++ lit "-" ++ S) = true.
Proof.
  intros HS. destruct (well_known_nonempty_alnum S HS) as [Hne Hal].
  change (P ++ lit "-" ++ S) with (P ++ [ascii_of_nat 45] ++ S).
  rewrite app_assoc.
  apply search_at_end; auto.
  rewrite length_app, Nat.add_comm; simpl.
  rewrite <- app_assoc, nth_error_app2 by lia.
  rewrite Nat.sub_diag; reflexivity.
Qed.

Lemma search_whole_name (S : str) :
  In S WELL_KNOWN_WORKSPACES -> search S S = true.
Proof.
  intros HS. destruct (well_known_nonempty_alnum S HS) as [Hne Hal].
  apply (search_at_end S [] S); auto.
Qed.

(** When the pattern matches and the name has no final newline, the suffix is
    a trailing whole word. *)
Lemma search_trailing (ws name : str) :
  search ws name = true ->
  trailing_whole_word ws name = true
  \/ exists n, name = n ++ [newline].
Proof.
  intros H. destruct (search_inv _ _ H) as (p & t & e & -> & Hm & He & Hb).
  destruct He as [-> | ->].
  - left. rewrite app_nil_r in *.
    assert (Hl : length t = length ws).
    { apply (f_equal (@length ascii)) in Hm; rewrite !length_map in Hm; auto. }
    unfold trailing_whole_word. rewrite length_app, Hl.
    replace (length p + length ws - length ws) with (length p) by lia.
    rewrite Hb, skipn_app, skipn_all, Nat.sub_diag; simpl.
    rewrite <- (app_nil_r t), (literal_intro ws t [] Hm).
    rewrite andb_true_r, andb_true_r. apply Nat.leb_le; lia.
  - right. exists (p ++ t). rewrite <- app_assoc; reflexivity.
Qed.

Lemma trailing_search (ws name : str) :
  In ws WELL_KNOWN_WORKSPACES ->
  trailing_whole_word ws name = true -> search ws name = true.
Proof.
  intros Hw H. destruct (well_known_nonempty_alnum ws Hw) as [Hne Hal].
  unfold trailing_whole_word in H.
  apply andb_true_iff in H as [H Hb]. apply andb_true_iff in H as [Hle Hl].
  apply Nat.leb_le in Hle.
  destruct (skipn_split (length name - length ws) name) as (p & Hp & Hlen);
    [lia|].
  destruct (literal_inv _ _ Hl) as (t & r & Ht & Hlt & Hm).
  assert (Hr : r = []).
  { apply (f_equal (@length ascii)) in Ht.
    rewrite length_skipn, length_app in Ht.
    destruct r; [reflexivity | simpl in Ht; lia]. }
  subst r. rewrite app_nil_r in Ht. rewrite Ht in Hp.
  rewrite Hp. apply search_at_end; auto.
  rewrite Hlen, <- Hp; exact Hb.
Qed.

(** Names without a final newline are split only at a trailing whole word. *)
Lemma parse_without_trailing_word (name : str) (order : list str) :
  (forall n, name <> n ++ [newline]) ->
  (forall ws, In ws order -> trailing_whole_word ws name = false) ->
  parse_prefixed_workspace name order = (name, []).
Proof.
  intros Hnl Hno. apply parse_no_match. intros w Hw.
  destruct (search w name) eqn:Hs; auto.
  destruct (search_trailing _ _ Hs) as [Ht | (n & Hn)].
  - rewrite (Hno w Hw) in Ht; discriminate.
  - destruct (Hnl n Hn).
Qed.

(** C1. For every prefix [P] and every suffix [S] of the well-known set,
    whatever order the set is iterated in, parsing [P + "-" + S] returns the
    pair [(P, S)]. *)
Theorem parse_prefix_dash_suffix (P S : str) (order : list str) :
  In S WELL_KNOWN_WORKSPACES ->
  Permutation order WELL_KNOWN_WORKSPACES ->
  parse_prefixed_workspace (P ++ lit "-" ++ S) order = (P, S).
Proof.
  intros HS Hp. rewrite (parse_order_irrelevant _ _ Hp).
  rewrite (parse_first_match _ S WELL_KNOWN_WORKSPACES HS (search_dash_suffix P S HS)).
  - f_equal. change (lit "-" ++ S) with (ascii_of_nat 45 :: S).
    replace (length S + 1) with (length (ascii_of_nat 45 :: S)) by (simpl; lia).
    apply drop_last_app.
  - intros w' Hw' Hs'. apply (well_known_exclusive (P ++ lit "-" ++ S)); auto.
    apply search_dash_suffix; auto.
Qed.

Lemma parse_prefix_dash_suffix_witness :
  In (lit "dev") WELL_KNOWN_WORKSPACES
  /\ Permutation (rev WELL_KNOWN_WORKSPACES) WELL_KNOWN_WORKSPACES
  /\ parse_prefixed_workspace (lit "backend_svc" ++ lit "-" ++ lit "dev")
       (rev WELL_KNOWN_WORKSPACES)
     = (lit "backend_svc", lit "dev").
Proof.
  assert (Hin : In (lit "dev") WELL_KNOWN_WORKSPACES)
    by (right; left; reflexivity).
  assert (Hp : Permutation (rev WELL_KNOWN_WORKSPACES) WELL_KNOWN_WORKSPACES)
    by (apply Permutation_sym, Permutation_rev).
  split; [exact Hin | split; [exact Hp |]].
  exact (parse_prefix_dash_suffix (lit "backend_svc") (lit "dev") _ Hin Hp).
Defined.

(** C2. The name ["foo-dev\n"] ends with none of the known suffixes, so none
    is a trailing whole word of it, yet [$] matches before the final newline:
    the function reports suffix ["dev"] and the prefix ["foo-"] that keeps the
    separator, instead of the whole name with an empty suffix. *)
Theorem parse_final_newline :
  let name := lit "foo-dev" ++ [newline] in
  (forall ws, In ws WELL_KNOWN_WORKSPACES -> trailing_whole_word ws name = false)
  /\ parse_prefixed_workspace name WELL_KNOWN_WORKSPACES
     = (lit "foo-", lit "dev")
  /\ parse_prefixed_workspace name WELL_KNOWN_WORKSPACES <> (name, []).
Proof.
  intros name. split; [|split].
  - apply well_known_cases; reflexivity.
  - reflexivity.
  - discriminate.
Qed.

(** C3. With [(prefix, suffix)] the parsed name, the destination key is
    [prefix/terraform.tfstate] when the suffix is empty or ["default"], and
    [env:/suffix/prefix/terraform.tfstate] for any other suffix. *)
Theorem destination_key (name : str) (order : list str) (prefix suffix : str) :
  parse_prefixed_workspace name order = (prefix, suffix) ->
  ((suffix = [] \/ suffix = lit "default") ->
   s3_object_key name order = prefix ++ lit "/terraform.tfstate")
  /\ (suffix <> [] -> suffix <> lit "default" ->
      s3_object_key name order
      = lit "env:/" ++ suffix ++ lit "/" ++ prefix ++ lit "/terraform.tfstate").
Proof.
  intros H. unfold s3_object_key, s3_object_key_of. rewrite H. split.
  - intros [-> | ->]; reflexivity.
  - intros H1 H2. destruct suffix as [|c suffix]; [congruence|].
    destruct (str_eqb (c :: suffix) (lit "default")) eqn:E; [|reflexivity].
    apply str_eqb_eq in E; congruence.
Qed.

Lemma destination_key_witness :
  parse_prefixed_workspace (lit "backend_svc-dev") WELL_KNOWN_WORKSPACES
  = (lit "backend_svc", lit "dev")
  /\ s3_object_key (lit "backend_svc-dev") WELL_KNOWN_WORKSPACES
     = lit "env:/dev/backend_svc/terraform.tfstate".
Proof.
  assert (H : parse_prefixed_workspace (lit "backend_svc-dev") WELL_KNOWN_WORKSPACES
              = (lit "backend_svc", lit "dev")) by reflexivity.
  split; [exact H|].
  apply (proj2 (destination_key _ _ _ _ H)); discriminate.
Defined.

(** C4. At most one of the four suffixes matches a given name, as the pattern
    tests it and as a trailing whole word; hence the parsed pair and the
    destination key are the same under every iteration order of the set. *)
Theorem parse_order_independent (name : str) (order1 order2 : list str) :
  Permutation order1 WELL_KNOWN_WORKSPACES ->
  Permutation order2 WELL_KNOWN_WORKSPACES ->
  (forall w1 w2, In w1 WELL_KNOWN_WORKSPACES -> In w2 WELL_KNOWN_WORKSPACES ->
                 search w1 name = true -> search w2 name = true -> w1 = w2)
  /\ (forall w1 w2, In w1 WELL_KNOWN_WORKSPACES -> In w2 WELL_KNOWN_WORKSPACES ->
                    trailing_whole_word w1 name = true ->
                    trailing_whole_word w2 name = true -> w1 = w2)
  /\ parse_prefixed_workspace name order1 = parse_prefixed_workspace name order2
  /\ s3_object_key name order1 = s3_object_key name order2.
Proof.
  intros H1 H2.
  assert (E : parse_prefixed_workspace name order1
              = parse_prefixed_workspace name order2).
  { rewrite (parse_order_irrelevant _ _ H1), (parse_order_irrelevant _ _ H2).
    reflexivity. }
  repeat split.
  - apply well_known_exclusive.
  - intros w1 w2 Hw1 Hw2 T1 T2.
    apply (well_known_exclusive name); auto using trailing_search.
  - exact E.
  - unfold s3_object_key; rewrite E; reflexivity.
Qed.

Lemma parse_order_independent_witness :
  Permutation WELL_KNOWN_WORKSPACES WELL_KNOWN_WORKSPACES
  /\ Permutation (rev WELL_KNOWN_WORKSPACES) WELL_KNOWN_WORKSPACES
  /\ parse_prefixed_workspace (lit "api-PROD") WELL_KNOWN_WORKSPACES
     = parse_prefixed_workspace (lit "api-PROD") (rev WELL_KNOWN_WORKSPACES).
Proof.
  assert (H1 : Permutation WELL_KNOWN_WORKSPACES WELL_KNOWN_WORKSPACES)
    by apply Permutation_refl.
  assert (H2 : Permutation (rev WELL_KNOWN_WORKSPACES) WELL_KNOWN_WORKSPACES)
    by (apply Permutation_sym, Permutation_rev).
  split; [exact H1 | split; [exact H2|]].
  exact (proj1 (proj2 (proj2 (parse_order_independent (lit "api-PROD") _ _ H1 H2)))).
Defined.

(** C10. A name that is exactly one of the known suffixes parses to the empty
    prefix and that suffix; the key is ["/terraform.tfstate"] for ["default"]
    and ["env:/suffix//terraform.tfstate"] for ["dev"], ["stg"] and ["prod"]. *)
Theorem parse_bare_suffix (S : str) (order : list str) :
  In S WELL_KNOWN_WORKSPACES ->
  Permutation order WELL_KNOWN_WORKSPACES ->
  parse_prefixed_workspace S order = ([], S)
  /\ (S = lit "default" -> s3_object_key S order = lit "/terraform.tfstate")
  /\ (S <> lit "default" ->
      s3_object_key S order = lit "env:/" ++ S ++ lit "//terraform.tfstate").
Proof.
  intros HS Hp.
  assert (E : parse_prefixed_workspace S order = ([], S)).
  { rewrite (parse_order_irrelevant _ _ Hp).
    rewrite (parse_first_match _ S WELL_KNOWN_WORKSPACES HS (search_whole_name S HS)).
    - rewrite drop_last_short by lia; reflexivity.
    - intros w' Hw' Hs'. apply (well_known_exclusive S); auto.
      apply search_whole_name; auto. }
  split; [exact E|]. unfold s3_object_key; rewrite E. split.
  - intros ->; reflexivity.
  - revert S HS E. apply (well_known_cases (fun S => _ -> S <> _ -> _));
      intros _ Hd; try reflexivity. destruct Hd; reflexivity.
Qed.

Lemma parse_bare_suffix_witness :
  In (lit "stg") WELL_KNOWN_WORKSPACES
  /\ Permutation (rev WELL_KNOWN_WORKSPACES) WELL_KNOWN_WORKSPACES
  /\ parse_prefixed_workspace (lit "stg") (rev WELL_KNOWN_WORKSPACES)
     = ([], lit "stg").
Proof.
  assert (Hin : In (lit "stg") WELL_KNOWN_WORKSPACES)
    by (right; right; left; reflexivity).
  assert (Hp : Permutation (rev WELL_KNOWN_WORKSPACES) WELL_KNOWN_WORKSPACES)
    by (apply Permutation_sym, Permutation_rev).
  split; [exact Hin | split; [exact Hp|]].
  exact (proj1 (parse_bare_suffix (lit "stg") _ Hin Hp)).
Defined.

End KeyDeriver.

(* ------------------------------------------------------------------ *)
(** ** State download *)

Module StateFetcher.

Lemma get_tfstate_content_result (url token : str) (file : option str)
    (dry_run : bool) (r : response) (s : state) :
  fst (get_tfstate_content url token file dry_run (Ok r) s)
  = if ((400 <=? status_code r) && (status_code r <? 600))%Z
    then Raise (HTTPError (status_code r))
    else Ok (content r).
Proof.
  destruct r as [st body].
  unfold get_tfstate_content, raise_for_status, requests_codes_ok. cbn.
  destruct (st =? 200)%Z eqn:E200; cbn.
  - apply Z.eqb_eq in E200; subst st. cbn.
    destruct file as [[|c f]|], dry_run; reflexivity.
  - destruct ((400 <=? st) && (st <? 600))%Z eqn:E; cbn; [reflexivity|].
    destruct file as [[|c f]|], dry_run; reflexivity.
Qed.

(** What the code does with a response in hand: [get_tfstate_content]
    raises an HTTP error exactly when the status is a client or server error
    (400 to 599), and returns the body for every other status. *)
Theorem get_tfstate_content_raises_iff (url token : str) (file : option str)
    (dry_run : bool) (r : response) (s : state) :
  (http_error (fst (get_tfstate_content url token file dry_run (Ok r) s)) = true
   <-> (400 <= status_code r < 600)%Z)
  /\ (http_error (fst (get_tfstate_content url token file dry_run (Ok r) s)) = false
      <-> fst (get_tfstate_content url token file dry_run (Ok r) s)
          = Ok (content r)).
Proof.
  rewrite get_tfstate_content_result.
  destruct ((400 <=? status_code r) && (status_code r <? 600))%Z eqn:E; cbn.
  - apply andb_true_iff in E as [E1 E2].
    apply Z.leb_le in E1. apply Z.ltb_lt in E2.
    repeat split; auto; discriminate.
  - apply andb_false_iff in E. repeat split; auto; try discriminate.
    intros [H1 H2]. destruct E as [E | E].
    + apply Z.leb_gt in E; lia.
    + apply Z.ltb_ge in E; lia.
Qed.

(** Status 304 is not a 2xx status and no error is raised, so the errors
    raised are not those of the statuses outside 200 to 299. *)
Lemma get_tfstate_content_not_2xx :
  ~ (forall (url token : str) (file : option str) (dry_run : bool)
            (r : response) (s : state),
        http_error (fst (get_tfstate_content url token file dry_run (Ok r) s)) = true
        <-> ~ (200 <= status_code r < 300)%Z).
Proof.
  intros H.
  specialize (H [] [] None false (mkResponse 304 []) (initial_state [])).
  cbn in H. destruct H as [_ H].
  assert (F : false = true) by (apply H; lia). discriminate F.
Qed.

(** C9, at a response with status 304 (Not Modified), which is not a 2xx
    status.  The test of line 185 is [status_code not in [200]], which holds,
    but [raise_for_status] raises for 400 to 599 only: no HTTP error is
    raised and the body of the response is returned as the state, whatever
    the URL, the token, the cache path and the mode.  A live run over one
    workspace whose download is answered so ends normally and uploads the
    (empty) body as the state of the workspace. *)
Theorem get_tfstate_content_status_304 :
  (forall (url token : str) (file : option str) (dry_run : bool)
          (body : bytes) (s : state),
      fst (get_tfstate_content url token file dry_run
             (Ok (mkResponse 304 body)) s)
      = Ok body)
  /\ (let answers :=
        mkResponses (Ok tt) (Ok (Sample.meta "https://archivist/2"))
                    (Ok (Sample.meta "https://archivist/2"))
                    (Ok (mkResponse 304 [])) (Ok tt) (Ok tt) (Ok tt) in
      let out :=
        run Sample.env Sample.live [mkItem Sample.api_prod 1 answers] [] in
      fst out = Ok tt
      /\ In (Upload (lit "states") (lit "env:/prod/api/terraform.tfstate") [])
            (effects (snd out))
      /\ uploaded_ws_count (snd out) = 1).
Proof.
  split.
  - intros url token file dry_run body s.
    rewrite get_tfstate_content_result. reflexivity.
  - vm_compute. repeat split; auto 10.
Qed.

End StateFetcher.

(* ------------------------------------------------------------------ *)
(** ** Metadata *)

Module MetadataFetcher.

Lemma cache_path_truthy (dir name : str) :
  nonempty dir = true -> truthy (Some (path_join dir (name ++ lit ".meta.json"))) = true.
Proof.
  intros Hd. unfold path_join.
  destruct (starts_with_slash (name ++ lit ".meta.json")).
  - destruct name; reflexivity.
  - destruct dir as [|c d]; [discriminate|]. cbn.
    destruct (ends_with_slash (c :: d)); reflexivity.
Qed.

(** The path taken through [fetch_metadata] when the cached file is
    malformed. *)
Lemma fetch_metadata_corrupt (a : args) (ws : workspace) (r : responses)
    (s : state) :
  nonempty (cache_dir a) = true ->
  read_file (path_join (cache_dir a) (ws_name ws ++ lit ".meta.json")) (files s)
  = Some Malformed ->
  let file := path_join (cache_dir a) (ws_name ws ++ lit ".meta.json") in
  let s1 :=
    add_effect (GetCurrent (ws_id ws))
      (add_log (DEBUG, RequestingMetadata)
         (add_log (WARNING, CorruptedFallingBack (ws_name ws))
            (add_log (DEBUG, MetadataFileCorrupted file)
               (add_log (DEBUG, ReadingMetadataFile file) s)))) in
  fetch_metadata a ws r s
  = match fallback_get_current_response r with
    | Raise TFCHTTPNotFound =>
        (Raise TFCHTTPNotFound, add_log (DEBUG, NoStoredStateFound) s1)
    | answer => (answer, s1)
    end.
Proof.
  intros Hc Hf file s1.
  pose proof (cache_path_truthy _ (ws_name ws) Hc) as Ht. fold file in Hf, Ht.
  unfold fetch_metadata. rewrite Hc. fold file.
  unfold get_tfstate_metadata, try_except, bind, get. cbv beta.
  rewrite Ht, Hf. cbn.
  destruct (fallback_get_current_response r) as [m | []]; reflexivity.
Qed.

(** The case the script provides for: a cached metadata file that is text
    but not a JSON document, on which [json.load] raises [JSONDecodeError].
    Fetching the metadata logs the corruption, calls the service once and
    ends as that call ends: the metadata used is the one the service
    returns.  Nothing is written and the skip list is untouched. *)
Theorem fetch_metadata_corrupt_cache (a : args) (ws : workspace)
    (r : responses) (s : state) :
  nonempty (cache_dir a) = true ->
  read_file (path_join (cache_dir a) (ws_name ws ++ lit ".meta.json")) (files s)
  = Some Malformed ->
  let file := path_join (cache_dir a) (ws_name ws ++ lit ".meta.json") in
  let out := fetch_metadata a ws r s in
  fst out = fallback_get_current_response r
  /\ (forall m, fallback_get_current_response r = Ok m -> fst out = Ok m)
  /\ (exists tail,
        LOG (snd out)
        = LOG s ++ [(DEBUG, ReadingMetadataFile file);
                    (DEBUG, MetadataFileCorrupted file);
                    (WARNING, CorruptedFallingBack (ws_name ws));
                    (DEBUG, RequestingMetadata)] ++ tail)
  /\ effects (snd out) = effects s ++ [GetCurrent (ws_id ws)]
  /\ files (snd out) = files s
  /\ skipped_workspaces (snd out) = skipped_workspaces s.
Proof.
  intros Hc Hf file out. subst out.
  rewrite (fetch_metadata_corrupt a ws r s Hc Hf). fold file.
  destruct (fallback_get_current_response r) as [m | e] eqn:Er.
  - cbn. repeat split; auto.
    exists []. rewrite <- !app_assoc. reflexivity.
  - assert (fst (match e with
                 | TFCHTTPNotFound => _
                 | _ => _ end) = @Raise metadata e) as -> by (destruct e; reflexivity).
    split; [reflexivity|]. split; [discriminate|].
    destruct e; cbn; repeat split;
      try (exists []; rewrite <- !app_assoc; reflexivity).
    exists [(DEBUG, NoStoredStateFound)]. rewrite <- !app_assoc. reflexivity.
Qed.

Lemma fetch_metadata_corrupt_cache_witness :
  let s := initial_state [(lit "cache/app-dev.meta.json", Malformed)] in
  fst (fetch_metadata Sample.cached Sample.app_dev
         (Sample.all_ok "https://archivist/state" []) s)
  = Ok (Sample.meta "https://archivist/state").
Proof.
  intros s.
  exact (proj1 (fetch_metadata_corrupt_cache Sample.cached Sample.app_dev
                  (Sample.all_ok "https://archivist/state" []) s
                  eq_refl eq_refl)).
Defined.

(** A whole run over one workspace whose cached metadata is malformed: it
    ends normally and downloads from the URL the service gave, not from a
    cached one. *)
Example run_with_corrupt_cache :
  let answers :=
    mkResponses (Ok tt) (Ok (Sample.meta "https://archivist/unused"))
                (Ok (Sample.meta "https://archivist/live"))
                (Ok (mkResponse 200 [])) (Ok tt) (Ok tt) (Ok tt) in
  let out :=
    run Sample.env_with_cache Sample.cached [mkItem Sample.app_dev 1 answers]
        [(lit "cache/app-dev.meta.json", Malformed)] in
  fst out = Ok tt
  /\ In (HttpGet (lit "https://archivist/live") (lit "tfc-token"))
        (effects (snd out))
  /\ count_effects is_upload (snd out) = 1
  /\ uploaded_ws_count (snd out) = 1.
Proof. vm_compute. repeat split; auto 10. Qed.

(** The cases the script does not provide for: a cached file on which
    [json.load] raises another exception than [JSONDecodeError].  No
    [except] clause of [get_tfstate_metadata] or of [main] names it: the
    fetch ends with it after the one log entry, and the service is not
    asked. *)
Lemma fetch_metadata_unreadable (a : args) (ws : workspace) (r : responses)
    (s : state) (c : file_content) (e : exn) :
  nonempty (cache_dir a) = true ->
  read_file (path_join (cache_dir a) (ws_name ws ++ lit ".meta.json")) (files s)
  = Some c ->
  (c = Undecodable /\ e = UnicodeDecodeError)
  \/ (c = TooDeep /\ e = RecursionError) ->
  let file := path_join (cache_dir a) (ws_name ws ++ lit ".meta.json") in
  fetch_metadata a ws r s
  = (Raise e, add_log (DEBUG, ReadingMetadataFile file) s).
Proof.
  intros Hc Hf Hce file.
  pose proof (cache_path_truthy _ (ws_name ws) Hc) as Ht. fold file in Hf, Ht.
  unfold fetch_metadata. rewrite Hc. fold file.
  unfold get_tfstate_metadata, try_except, bind, get. cbv beta.
  rewrite Ht, Hf.
  destruct Hce as [[-> ->] | [-> ->]]; reflexivity.
Qed.

(** C8, at a cached metadata file that is not text in the encoding [open]
    reads it with (bytes that are not UTF-8, say): the file exists and does
    not parse as JSON, and [json.load] raises [UnicodeDecodeError], which is
    not a [JSONDecodeError].  The fetch of the metadata fails with it, and so
    does the run: the corruption is not logged, the service is not asked
    for the metadata, nothing is downloaded or uploaded. *)
Theorem run_with_undecodable_cache :
  let fs := [(lit "cache/app-dev.meta.json", Undecodable)] in
  let answers := Sample.all_ok "https://archivist/live" [] in
  let out :=
    run Sample.env_with_cache Sample.cached [mkItem Sample.app_dev 1 answers]
        fs in
  fst (fetch_metadata Sample.cached Sample.app_dev answers (initial_state fs))
  = Raise UnicodeDecodeError
  /\ fst out = Raise UnicodeDecodeError
  /\ effects (snd out) = []
  /\ LOG (snd out)
     = [(INFO, CachingTo (lit "/opt/migration/cache"));
        (INFO, FetchingMetadata (lit "app-dev"));
        (DEBUG, ReadingMetadataFile (lit "cache/app-dev.meta.json"))].
Proof. vm_compute. repeat split. Qed.

End MetadataFetcher.

(* ------------------------------------------------------------------ *)
(** ** What every step of a run preserves *)

Module Invariant.

Lemma workspace_eqb_eq (a b : workspace) : workspace_eqb a b = true <-> a = b.
Proof.
  unfold workspace_eqb. rewrite !andb_true_iff, !str_eqb_eq.
  destruct a, b; cbn. split.
  - intros [[-> ->] ->]; reflexivity.
  - intros H; inversion H; auto.
Qed.

Lemma existsb_workspace (ws : workspace) (l : list workspace) :
  existsb (workspace_eqb ws) l = true <-> In ws l.
Proof.
  rewrite existsb_exists. split.
  - intros (x & Hx & E). apply workspace_eqb_eq in E; subst; auto.
  - intros H; exists ws; split; auto. apply workspace_eqb_eq; reflexivity.
Qed.

Lemma filter_absent (ws : workspace) (l : list workspace) :
  ~ In ws l -> filter (workspace_eqb ws) l = [].
Proof.
  induction l as [|y l IH]; intros Hn; [reflexivity|]. cbn.
  destruct (workspace_eqb ws y) eqn:Ey.
  - apply workspace_eqb_eq in Ey; subst y. destruct Hn; left; auto.
  - apply IH. intros H; apply Hn; right; auto.
Qed.

Lemma occurrences_NoDup (ws : workspace) (l : list workspace) :
  NoDup l -> In ws l -> occurrences ws l = 1.
Proof.
  unfold occurrences. induction 1 as [|x l Hx Hl IH]; intros Hin; [destruct Hin|].
  cbn. destruct (workspace_eqb ws x) eqn:E.
  - apply workspace_eqb_eq in E; subst x. cbn.
    rewrite filter_absent; auto.
  - destruct Hin as [-> | Hin]; [|auto].
    rewrite (proj2 (workspace_eqb_eq ws ws) eq_refl) in E; discriminate.
Qed.

Section Rules.

Context {R : state -> state -> Prop} {allowed : effect -> bool}
        {logged : message -> bool} `{Frame R allowed logged}.
Variable E : exn -> bool.

Lemma post_ret {A} (a : A) : post (ret a) R E.
Proof. intros s; split; [apply frame_refl | discriminate]. Qed.

Lemma post_raise {A} (e : exn) : E e = true -> post (@raise A e) R E.
Proof.
  intros He s; split; [apply frame_refl|]. cbn; intros e' [= <-]; auto.
Qed.

Lemma post_get {A} (f : state -> A) : post (get f) R E.
Proof. intros s; split; [apply frame_refl | discriminate]. Qed.

Lemma post_log l m : logged m = true -> post (log l m) R E.
Proof. intros Hm s; split; [apply frame_log; auto | discriminate]. Qed.

Lemma post_set_total n : post (modify (set_total n)) R E.
Proof. intros s; split; [apply frame_total | discriminate]. Qed.

Lemma post_set_uploaded n : post (modify (set_uploaded n)) R E.
Proof. intros s; split; [apply frame_uploaded | discriminate]. Qed.

Lemma post_put_file p c : post (modify (put_file p c)) R E.
Proof. intros s; split; [apply frame_put_file | discriminate]. Qed.

Lemma post_call {A} e (answer : result A) :
  allowed e = true -> (forall x, answer = Raise x -> E x = true) ->
  post (call e answer) R E.
Proof. intros He Hx s; split; [apply frame_effect; auto | apply Hx]. Qed.

Lemma post_bind {A B} (m : M A) (k : A -> M B) :
  post m R E -> (forall a, post (k a) R E) -> post (bind m k) R E.
Proof.
  intros Hm Hk s. unfold bind. destruct (Hm s) as [H1 H2].
  destruct (m s) as [[x | e] s1]; cbn in *.
  - destruct (Hk x s1) as [H3 H4]. split; auto.
    eapply frame_trans; eauto.
  - split; auto. intros e' [= <-]. apply (H2 e eq_refl).
Qed.

Lemma post_try_except {A} (m : M A) (handler : exn -> option (M A)) :
  post m R E ->
  (forall e h, E e = true -> handler e = Some h -> post h R E) ->
  post (try_except m handler) R E.
Proof.
  intros Hm Hh s. unfold try_except. destruct (Hm s) as [H1 H2].
  destruct (m s) as [[x | e] s1]; cbn in *; [split; auto; discriminate|].
  destruct (handler e) as [h|] eqn:Eh; cbn; [|split; auto].
  destruct (Hh e h (H2 e eq_refl) Eh s1) as [H3 H4]. split; auto.
  eapply frame_trans; eauto.
Qed.

Lemma post_try_finally {A} (m : M A) (fin : M unit) :
  post m R E -> post fin R E -> post (try_finally m fin) R E.
Proof.
  intros Hm Hf s. unfold try_finally. destruct (Hm s) as [H1 H2].
  destruct (m s) as [r s1]; cbn in *. destruct (Hf s1) as [H3 H4].
  destruct (fin s1) as [[[] | e] s2]; cbn in *;
    (split; [eapply frame_trans; eauto | auto]).
  intros e' [= <-]. apply (H4 e eq_refl).
Qed.

End Rules.

Lemma nothing_new {A} (P : A -> bool) (l : list A) :
  exists l', l = l ++ l' /\ forallb P l' = true.
Proof. exists []; split; [symmetry; apply app_nil_r | reflexivity]. Qed.

Lemma one_new {A} (P : A -> bool) (l : list A) (x : A) :
  P x = true -> exists l', l ++ [x] = l ++ l' /\ forallb P l' = true.
Proof. intros H. exists [x]; cbn; rewrite H; auto. Qed.

Lemma more_new {A} (P : A -> bool) (l1 l2 l3 : list A) :
  (exists l, l2 = l1 ++ l /\ forallb P l = true) ->
  (exists l, l3 = l2 ++ l /\ forallb P l = true) ->
  exists l, l3 = l1 ++ l /\ forallb P l = true.
Proof.
  intros (k1 & E1 & A1) (k2 & E2 & A2).
  exists (k1 ++ k2). rewrite E2, E1, app_assoc, forallb_app, A1, A2; auto.
Qed.

Lemma grows_same allowed logged (s s' : state) :
  skipped_workspaces s' = skipped_workspaces s ->
  (exists l, effects s' = effects s ++ l /\ forallb allowed l = true) ->
  (exists l, LOG s' = LOG s ++ l
             /\ forallb (fun e => logged (snd e)) l = true) ->
  grows allowed logged s s'.
Proof. intros E1 E2 E3. unfold grows. rewrite E1. auto using incl_refl. Qed.

#[export] Instance grows_frame allowed logged :
  Frame (grows allowed logged) allowed logged.
Proof.
  constructor.
  - intros s; apply grows_same; cbn; auto using nothing_new.
  - intros s1 s2 s3 (I1 & N1 & F1 & L1) (I2 & N2 & F2 & L2).
    repeat split; eauto using incl_tran, more_new.
  - intros l m s Hm; apply grows_same; cbn; auto using nothing_new.
    apply (one_new (fun e => logged (snd e)) (LOG s) (l, m)); auto.
  - intros n s; apply grows_same; cbn; auto using nothing_new.
  - intros n s; apply grows_same; cbn; auto using nothing_new.
  - intros p c s; apply grows_same; cbn; auto using nothing_new.
  - intros e s He; apply grows_same; cbn; auto using nothing_new, one_new.
Qed.

#[export] Instance quiet_frame : Frame quiet read_only any_message.
Proof.
  constructor.
  - intros s; split; cbn; auto using nothing_new.
  - intros s1 s2 s3 (S1 & F1) (S2 & F2).
    split; [congruence | eauto using more_new].
  - intros l m s _; split; cbn; auto using nothing_new.
  - intros n s; split; cbn; auto using nothing_new.
  - intros n s; split; cbn; auto using nothing_new.
  - intros p c s; split; cbn; auto using nothing_new.
  - intros e s He; split; cbn; auto using nothing_new, one_new.
Qed.

Lemma post_skip allowed logged E ws :
  post (skip ws) (grows allowed logged) E.
Proof.
  intros s. unfold skip, bind, get, when, modify, ret.
  destruct (existsb (workspace_eqb ws) (skipped_workspaces s)) eqn:Ex; cbn;
    (split; [|discriminate]); [apply frame_refl|].
  repeat split; cbn; auto using nothing_new.
  - apply incl_appl, incl_refl.
  - intros Hn. apply NoDup_app; auto.
    + repeat constructor; intros [].
    + intros x Hx [<- | []].
      apply existsb_workspace in Hx. congruence.
Qed.

End Invariant.

(* ------------------------------------------------------------------ *)
(** ** The loop, step by step *)

Module RunFacts.
Import Invariant.

Ltac unfold_program :=
  unfold process, fetch_state, try_body, fetch_metadata, get_tfstate_metadata,
    get_tfstate_content, raise_for_status, upload_state, upload_to_s3,
    finally_clause, create_tfstate_cache, json_load, when, locking.

Ltac handler_cases :=
  let e := fresh "e" in
  let h := fresh "h" in
  let He := fresh "He" in
  let Hh := fresh "Hh" in
  intros e h He Hh; unfold except_clauses in Hh;
  destruct e; cbn in Hh, He; try discriminate Hh; try discriminate He;
  injection Hh as <-.

(** The answers a call may give stay within the exceptions expected. *)
Ltac answer_cases :=
  let x := fresh "x" in
  let Hx := fresh "Hx" in
  intros x Hx;
  first
    [ reflexivity
    | discriminate Hx
    | destruct x; try reflexivity; exfalso;
      match goal with
      | H : conflict_free _ |- _ =>
          destruct H as (? & ? & ?); congruence
      end ].

(** Use what is known of the command line. *)
Ltac flags :=
  repeat match goal with
         | H : dry_run ?a = _ |- context [dry_run ?a] => rewrite H
         | H : skip_lock ?a = _ |- context [skip_lock ?a] => rewrite H
         | H : nonempty (cache_dir ?a) = _ |- context [nonempty (cache_dir ?a)] =>
             rewrite H
         end;
  cbn [negb andb orb];
  rewrite ?andb_false_r, ?andb_true_r.

Ltac post_step :=
  first
    [ apply post_ret
    | apply post_get
    | apply post_log; reflexivity
    | apply post_set_total
    | apply post_set_uploaded
    | apply post_put_file
    | apply post_skip
    | apply post_raise; reflexivity
    | apply post_call; [reflexivity | answer_cases]
    | apply post_bind; [| intros ?]
    | apply post_try_finally
    | apply post_try_except; [| handler_cases]
    | progress unfold when, locking
    | progress flags
    | match goal with
      | |- post (if ?b then _ else _) _ _ => destruct b eqn:?
      | |- post (match ?x with _ => _ end) _ _ => destruct x eqn:?
      end ].

Ltac post_auto := unfold_program; repeat post_step.

(** In any mode a turn of the loop only adds to the skip list, without
    duplicates, and does not write the skip file. *)
Lemma process_grows (env : environ) (a : args) (n : nat) (it : item) :
  post (process env a n it) (grows not_skipped_write any_message) any_exn.
Proof. post_auto. Qed.

Lemma loop_post (env : environ) (a : args)
    (R : state -> state -> Prop) (allowed : effect -> bool)
    (logged : message -> bool) (E : exn -> bool) `{Frame R allowed logged} :
  logged (ReachedLimit (limit_workspaces a)) = true ->
  forall workspaces,
    (forall it, In it workspaces -> forall n, post (process env a n it) R E) ->
    forall n, post (loop env a n workspaces) R E.
Proof.
  intros Hlim. induction workspaces as [|it rest IH]; intros Hp n; cbn [loop].
  - apply post_ret.
  - assert (Hstep : post (process env a n it;; loop env a (S n) rest) R E).
    { apply post_bind; [apply Hp; left; reflexivity|].
      intros _. apply IH. intros it' Hin. apply Hp; right; exact Hin. }
    destruct (limit_workspaces a =? 0)%Z;
      [|destruct (Z.of_nat n >? limit_workspaces a)%Z];
      auto. apply post_log; exact Hlim.
Qed.

(** [setup] cannot fail and leaves the skip list alone. *)
Lemma setup_post (env : environ) (a : args) :
  post (setup env a) (grows not_skipped_write any_message) no_exn.
Proof. unfold setup. post_auto. Qed.

(** What [report] leaves behind. *)
Lemma report_result (env : environ) (a : args) (s : state) :
  fst (report env a s) = Ok tt
  /\ skipped_workspaces (snd (report env a s)) = skipped_workspaces s
  /\ uploaded_ws_count (snd (report env a s)) = uploaded_ws_count s
  /\ effects (snd (report env a s))
     = effects s ++ (if nonempty (skipped_workspaces s)
                     then [WriteSkipped (skipped_workspaces_file env)
                             (skipped_workspaces s)]
                     else []).
Proof.
  unfold report, bind, get, when, log, modify, call, ret.
  destruct (skipped_workspaces s) as [|w l] eqn:Es, (stats a); cbn;
    rewrite ?Es, ?app_nil_r; auto.
Qed.

(** A lock attempt answered by Conflict puts the workspace on the skip list,
    whatever the unlock that follows gives. *)
Lemma process_conflict (env : environ) (a : args) (n : nat) (it : item)
    (s : state) :
  locking a = true ->
  lock_response (it_env it) = Raise TFCHTTPConflict ->
  In (it_ws it) (skipped_workspaces (snd (process env a n it s))).
Proof.
  intros Hl Hr.
  unfold process, fetch_state, try_body, finally_clause, when.
  rewrite Hl.
  unfold try_finally, try_except, bind, modify, log, call. cbn.
  rewrite Hr. cbn. unfold skip, bind, get, when, modify, ret. cbn.
  destruct (existsb (workspace_eqb (it_ws it)) (skipped_workspaces s)) eqn:Ex;
    cbn; destruct (unlock_response (it_env it)) as [[] | []]; cbn;
    solve [ apply existsb_workspace; exact Ex
          | apply in_or_app; right; left; reflexivity ].
Qed.

(** Every element the loop reaches with locking on and a Conflict answer to
    the lock is on the skip list when the loop ends normally. *)
Lemma loop_conflict (env : environ) (a : args) :
  locking a = true ->
  forall workspaces n s i it,
    nth_error workspaces i = Some it ->
    within_limit a (n + i) ->
    lock_response (it_env it) = Raise TFCHTTPConflict ->
    fst (loop env a (S n) workspaces s) = Ok tt ->
    In (it_ws it) (skipped_workspaces (snd (loop env a (S n) workspaces s))).
Proof.
  intros Hl. induction workspaces as [|it0 rest IH]; intros n s i it Hi Hw Hr Hok.
  - destruct i; discriminate.
  - cbn [loop] in *.
    assert (Hgo : forall (k : M unit),
               (if (limit_workspaces a =? 0)%Z then k
                else if (Z.of_nat (S n) >? limit_workspaces a)%Z
                     then log INFO (ReachedLimit (limit_workspaces a))
                     else k) = k).
    { intros k. destruct (limit_workspaces a =? 0)%Z eqn:E0; [reflexivity|].
      destruct (Z.of_nat (S n) >? limit_workspaces a)%Z eqn:E1; [|reflexivity].
      exfalso. apply Z.eqb_neq in E0. apply Z.gtb_lt in E1.
      destruct Hw as [Hw | Hw]; lia. }
    rewrite Hgo in *. unfold bind in *.
    pose proof (process_conflict env a (S n) it0 s Hl) as Hc.
    destruct (process env a (S n) it0 s) as [[[] | e] s1]; [|discriminate].
    destruct i as [|i]; cbn in Hi.
    + injection Hi as ->. cbn in Hc.
      destruct (loop_post env a _ _ _ any_exn eq_refl rest
                  (fun it _ n => process_grows env a n it) (S (S n)) s1)
        as [(Hincl & _) _].
      apply Hincl, Hc, Hr.
    + apply (IH (S n) s1 i it); auto.
      unfold within_limit in *. replace (S n + i) with (n + S i) by lia. exact Hw.
Qed.


(** *** Dry runs *)

Lemma process_dry (env : environ) (a : args) (n : nat) (it : item) :
  dry_run a = true ->
  post (process env a n it) (grows read_only dry_logged) any_exn.
Proof. intros Hd. post_auto. Qed.

Lemma process_quiet (env : environ) (a : args) (n : nat) (it : item) :
  dry_run a = true -> conflict_free (it_env it) ->
  post (process env a n it) quiet not_conflict.
Proof. intros Hd Hc. post_auto. Qed.

Lemma setup_dry (env : environ) (a : args) :
  dry_run a = true ->
  post (setup env a) (grows read_only dry_logged) no_exn.
Proof. intros Hd. unfold setup. post_auto. Qed.

Lemma setup_quiet (env : environ) (a : args) :
  dry_run a = true -> post (setup env a) quiet no_exn.
Proof. intros Hd. unfold setup. post_auto. Qed.

Lemma report_log (env : environ) (a : args) (s : state) :
  exists l, LOG (snd (report env a s)) = LOG s ++ l
            /\ forallb (fun e => dry_logged (snd e)) l = true.
Proof.
  unfold report, bind, get, when, log, modify, call, ret.
  destruct (skipped_workspaces s) as [|w l] eqn:Es, (stats a); cbn;
    rewrite <- ?app_assoc; eexists; split;
    try reflexivity; try (symmetry; apply app_nil_r); reflexivity.
Qed.

Lemma filter_excluded {A} (P Q : A -> bool) (l : list A) :
  (forall x, P x = true -> Q x = false) ->
  forallb P l = true -> filter Q l = [].
Proof.
  intros HPQ. induction l as [|x l IH]; cbn; [reflexivity|].
  intros H. apply andb_true_iff in H as [Hx Hl].
  rewrite (HPQ x Hx). auto.
Qed.

(** A whole dry run: the calls made only read, except for the skip file
    written last when the skip list is not empty; without a Conflict answer
    the list stays empty. *)
Lemma run_dry (env : environ) (a : args) (workspaces : list item)
    (fs : list (str * file_content)) :
  dry_run a = true ->
  let st := snd (run env a workspaces fs) in
  exists l tail,
    effects st = l ++ tail
    /\ forallb read_only l = true
    /\ (tail = [] \/ exists path skipped, tail = [WriteSkipped path skipped])
    /\ forallb (fun e => dry_logged (snd e)) (LOG st) = true
    /\ (Forall (fun it => conflict_free (it_env it)) workspaces -> tail = []).
Proof.
  intros Hd st. subst st. unfold run, main, bind.
  destruct (setup_dry env a Hd (initial_state fs))
    as [(_ & _ & (l1 & E1 & A1) & (k1 & L1 & B1)) X1].
  destruct (setup_quiet env a Hd (initial_state fs)) as [(Q1 & _) _].
  destruct (setup env a (initial_state fs)) as [[[] | e] s1];
    [|specialize (X1 e eq_refl); discriminate].
  pose proof (loop_post env a _ _ _ any_exn eq_refl workspaces
                (fun it _ n => process_dry env a n it Hd) 1 s1) as Hg.
  assert (Hq : Forall (fun it => conflict_free (it_env it)) workspaces ->
               skipped_workspaces (snd (loop env a 1 workspaces s1)) = []).
  { intros Hf. rewrite Forall_forall in Hf.
    destruct (loop_post env a _ _ _ not_conflict eq_refl workspaces
                (fun it Hin n => process_quiet env a n it Hd (Hf it Hin)) 1 s1)
      as [(Q2 & _) _].
    cbn in Q1. congruence. }
  destruct Hg as [(_ & _ & (l2 & E2 & A2) & (k2 & L2 & B2)) _].
  cbn in E1, L1.
  destruct (loop env a 1 workspaces s1) as [[[] | e] s2]; cbn [fst snd] in *.
  - destruct (report_result env a s2) as (_ & _ & _ & R2).
    destruct (report_log env a s2) as (k3 & L3 & B3).
    unfold log_entry in *.
    exists (l1 ++ l2).
    exists (if nonempty (skipped_workspaces s2)
            then [WriteSkipped (skipped_workspaces_file env) (skipped_workspaces s2)]
            else []).
    rewrite R2, L3, E2, L2, E1, L1, !forallb_app, A1, A2, B1, B2, B3.
    repeat split; auto.
    + destruct (nonempty (skipped_workspaces s2)); eauto.
    + intros Hf. rewrite (Hq Hf). reflexivity.
  - exists (l1 ++ l2), []. unfold log_entry in *.
    rewrite E2, L2, E1, L1, !forallb_app, A1, A2, B1, B2, app_nil_r.
    repeat split; auto.
Qed.

End RunFacts.

(* ------------------------------------------------------------------ *)
(** ** A live run and its dry run, side by side *)

Module SideBySide.
Import Invariant RunFacts.

Lemma tally_snoc (p : message -> bool) (lvl : level) (l : list log_entry)
    (e : log_entry) :
  tally p lvl (l ++ [e])
  = tally p lvl l
    + (if (level_no lvl <=? level_no (fst e)) && p (snd e) then 1 else 0).
Proof.
  unfold tally, count_log, emitted. rewrite filter_app, filter_app, length_app.
  cbn. destruct (level_no lvl <=? level_no (fst e)); cbn;
    [destruct (p (snd e))|]; reflexivity.
Qed.

Lemma tally_app_none (p : message -> bool) (lvl : level) (l k : list log_entry) :
  forallb (fun e => negb (p (snd e))) k = true ->
  tally p lvl (l ++ k) = tally p lvl l.
Proof.
  revert l. induction k as [|e k IH]; intros l H; [rewrite app_nil_r; auto|].
  cbn in H. apply andb_true_iff in H as [He Hk].
  change (e :: k) with ([e] ++ k). rewrite app_assoc, IH, tally_snoc by auto.
  apply negb_true_iff in He. rewrite He, andb_false_r. lia.
Qed.

Lemma alike_refl (s : state) : alike s s.
Proof. repeat split; auto. Qed.

Lemma alike_log (l : level) (m1 m2 : message) (s1 s2 : state) :
  describes_upload m1 = describes_upload m2 ->
  alike s1 s2 -> alike (add_log (l, m1) s1) (add_log (l, m2) s2).
Proof.
  intros Hm (H1 & H2 & H3 & H4). repeat split; auto.
  intros lvl. cbn [LOG add_log]. rewrite !tally_snoc, H4. cbn [fst snd].
  rewrite Hm; reflexivity.
Qed.

Lemma alike_log_left (l : level) (m : message) (s1 s2 : state) :
  describes_upload m = false ->
  alike s1 s2 -> alike (add_log (l, m) s1) s2.
Proof.
  intros Hm (H1 & H2 & H3 & H4). repeat split; auto.
  intros lvl. cbn [LOG add_log]. rewrite tally_snoc, ?H4. cbn [fst snd].
  rewrite Hm, andb_false_r. lia.
Qed.

Lemma alike_log_right (l : level) (m : message) (s1 s2 : state) :
  describes_upload m = false ->
  alike s1 s2 -> alike s1 (add_log (l, m) s2).
Proof.
  intros Hm (H1 & H2 & H3 & H4). repeat split; auto.
  intros lvl. cbn [LOG add_log]. rewrite tally_snoc, ?H4. cbn [fst snd].
  rewrite Hm, andb_false_r. lia.
Qed.

Lemma alike_effect_left (e : effect) (s1 s2 : state) :
  alike s1 s2 -> alike (add_effect e s1) s2.
Proof. intros (H1 & H2 & H3 & H4). repeat split; auto. Qed.

Lemma alike_effect_right (e : effect) (s1 s2 : state) :
  alike s1 s2 -> alike s1 (add_effect e s2).
Proof. intros (H1 & H2 & H3 & H4). repeat split; auto. Qed.

Lemma alike_uploaded (n1 n2 : nat) (s1 s2 : state) :
  alike s1 s2 -> alike (set_uploaded n1 s1) (set_uploaded n2 s2).
Proof. intros (H1 & H2 & H3 & H4). repeat split; auto. Qed.

Lemma alike_total (n : nat) (s1 s2 : state) :
  alike s1 s2 -> alike (set_total n s1) (set_total n s2).
Proof. intros (H1 & H2 & H3 & H4). repeat split; auto. Qed.

(** *** Rules *)

Lemma rel_ret {A} (a : A) : rel (ret a) (ret a).
Proof. intros s1 s2 H; split; auto. Qed.

Lemma rel_raise {A} (e : exn) : rel (@raise A e) (raise e).
Proof. intros s1 s2 H; split; auto. Qed.

Lemma rel_get_files : rel (get files) (get files).
Proof. intros s1 s2 H; split; [|exact H]. cbn. destruct H as (_ & _ & -> & _); auto. Qed.

Lemma rel_get_skipped : rel (get skipped_workspaces) (get skipped_workspaces).
Proof. intros s1 s2 H; split; [|exact H]. cbn. destruct H as (-> & _); auto. Qed.

Lemma rel_get_total : rel (get total_ws_count) (get total_ws_count).
Proof. intros s1 s2 H; split; [|exact H]. cbn. destruct H as (_ & -> & _); auto. Qed.

Lemma rel_log (l : level) (m1 m2 : message) :
  describes_upload m1 = describes_upload m2 -> rel (log l m1) (log l m2).
Proof. intros Hm s1 s2 H; split; [reflexivity | apply alike_log; auto]. Qed.

Lemma rel_call {A} (e1 e2 : effect) (answer : result A) :
  rel (call e1 answer) (call e2 answer).
Proof.
  intros s1 s2 H; split; [reflexivity|]. cbn [snd call].
  apply alike_effect_left, alike_effect_right, H.
Qed.

Lemma rel_set_total (n : nat) : rel (modify (set_total n)) (modify (set_total n)).
Proof. intros s1 s2 H; split; [reflexivity | apply alike_total; auto]. Qed.

Lemma rel_set_uploaded (n1 n2 : nat) :
  rel (modify (set_uploaded n1)) (modify (set_uploaded n2)).
Proof. intros s1 s2 H; split; [reflexivity | apply alike_uploaded; auto]. Qed.

Lemma rel_skip (ws : workspace) : rel (skip ws) (skip ws).
Proof.
  intros s1 s2 H. unfold skip, bind, get, when, modify, ret. cbv beta iota.
  destruct H as (H1 & H2 & H3 & H4). rewrite <- H1.
  destruct (existsb (workspace_eqb ws) (skipped_workspaces s1)); cbn;
    (split; [reflexivity|]); repeat split; cbn; auto; congruence.
Qed.

Lemma rel_bind {A B} (m1 m2 : M A) (k1 k2 : A -> M B) :
  rel m1 m2 -> (forall a, rel (k1 a) (k2 a)) -> rel (bind m1 k1) (bind m2 k2).
Proof.
  intros Hm Hk s1 s2 H. unfold bind. destruct (Hm s1 s2 H) as [E1 E2].
  destruct (m1 s1) as [r1 t1], (m2 s2) as [r2 t2]. cbn in *. subst r2.
  destruct r1 as [x | e]; [apply Hk; auto | split; auto].
Qed.

Lemma rel_try_except {A} (m1 m2 : M A) (h1 h2 : exn -> option (M A)) :
  rel m1 m2 -> handlers_rel h1 h2 ->
  rel (try_except m1 h1) (try_except m2 h2).
Proof.
  intros Hm Hh s1 s2 H. unfold try_except. destruct (Hm s1 s2 H) as [E1 E2].
  destruct (m1 s1) as [r1 t1], (m2 s2) as [r2 t2]. cbn in *. subst r2.
  destruct r1 as [x | e]; [split; auto|].
  specialize (Hh e). destruct (h1 e), (h2 e); try contradiction; auto.
Qed.

Lemma rel_try_finally {A} (m1 m2 : M A) (f1 f2 : M unit) :
  rel m1 m2 -> rel f1 f2 -> rel (try_finally m1 f1) (try_finally m2 f2).
Proof.
  intros Hm Hf s1 s2 H. unfold try_finally. destruct (Hm s1 s2 H) as [E1 E2].
  destruct (m1 s1) as [r1 t1], (m2 s2) as [r2 t2]. cbn in *. subst r2.
  destruct (Hf t1 t2 E2) as [F1 F2].
  destruct (f1 t1) as [q1 u1], (f2 t2) as [q2 u2]. cbn in *. subst q2.
  destruct q1 as [[] | e]; split; auto.
Qed.

(** *** Where the two runs differ *)

Lemma rel_lock (name id : str) :
  rel (log INFO (LockingWorkspace name);; call (Lock id) (Ok tt)) (ret tt).
Proof.
  intros s1 s2 H; split; [reflexivity|]. cbn.
  apply alike_effect_left, alike_log_left; auto.
Qed.

Lemma rel_interrupt_unlock (name id : str) :
  rel (log ERROR (Interrupted name);; call (Unlock id) (Ok tt)) (ret tt).
Proof.
  intros s1 s2 H; split; [reflexivity|]. cbn.
  apply alike_effect_left, alike_log_left; auto.
Qed.

Lemma rel_unlock (name id : str) (answer : result unit) :
  answer = Ok tt \/ answer = Raise TFCHTTPConflict ->
  rel (log INFO (UnlockingWorkspace name);;
       try_except (call (Unlock id) answer)
         (fun e => match e with
                   | TFCHTTPConflict => Some (log DEBUG IgnoringError)
                   | _ => None
                   end))
      (ret tt).
Proof.
  intros [-> | ->] s1 s2 H; (split; [reflexivity|]); cbn.
  - apply alike_effect_left, alike_log_left; auto.
  - apply alike_log_left, alike_effect_left, alike_log_left; auto.
Qed.

Lemma rel_upload (bucket key : str) (data : bytes) :
  rel (log DEBUG (UploadingTfstate bucket key);;
       call (Upload bucket key data) (Ok tt))
      (log DEBUG (WouldUploadTfstate bucket key)).
Proof.
  intros s1 s2 H; split; [reflexivity|]. cbn.
  apply alike_effect_left, alike_log; auto.
Qed.

(** *** The loop *)

Ltac known_answers :=
  repeat match goal with
         | H : lock_response ?r = _ |- context [lock_response ?r] => rewrite H
         | H : interrupt_unlock_response ?r = _
           |- context [interrupt_unlock_response ?r] => rewrite H
         | H : upload_response ?r = _ |- context [upload_response ?r] =>
             rewrite H
         end.

Ltac of_dry :=
  cbn [dry_of dry_run skip_lock cache_dir s3_bucket_name limit_workspaces stats].

Ltac rel_handlers :=
  let e := fresh "e" in
  unfold handlers_rel, except_clauses; intros e; destruct e;
  cbv beta iota; try exact I.

Ltac rel_step :=
  first
    [ apply rel_ret
    | apply rel_raise
    | apply rel_get_files
    | apply rel_get_skipped
    | apply rel_get_total
    | apply rel_log; reflexivity
    | apply rel_call
    | apply rel_set_total
    | apply rel_set_uploaded
    | apply rel_skip
    | apply rel_lock
    | apply rel_interrupt_unlock
    | apply rel_unlock; assumption
    | apply rel_upload
    | apply rel_bind; [| intros ?]
    | apply rel_try_finally
    | apply rel_try_except; [| rel_handlers]
    | progress unfold when, locking
    | progress (of_dry; flags; known_answers)
    | match goal with
      | |- rel (if ?b then _ else _) (if ?b then _ else _) => destruct b eqn:?
      | |- rel (match ?x with _ => _ end) (match ?x with _ => _ end) =>
          destruct x eqn:?
      end ].

(** One turn of the loop, live and dry, without a cache directory and with
    the live calls succeeding. *)
Lemma process_alike (env : environ) (a : args) (n : nat) (it : item) :
  dry_run a = false -> nonempty (cache_dir a) = false ->
  calls_succeed a (it_env it) ->
  rel (process env a n it) (process env (dry_of a) n it).
Proof.
  intros Hd Hc (Hu & Hl).
  destruct (skip_lock a) eqn:Hs; [|destruct (Hl eq_refl) as (Hlk & Hi & Hun)];
    unfold_program; cbv zeta; repeat rel_step.
Qed.

Lemma rel_banner : rel (ret tt) (log INFO DryRunMode).
Proof.
  intros s1 s2 H; split; [reflexivity|]. cbn.
  apply alike_log_right; auto.
Qed.

Lemma rel_get_uploaded {B} (k1 k2 : nat -> M B) :
  (forall x y, rel (k1 x) (k2 y)) ->
  rel (bind (get uploaded_ws_count) k1) (bind (get uploaded_ws_count) k2).
Proof. intros Hk s1 s2 H. unfold bind, get. apply Hk, H. Qed.

Lemma loop_alike (env : environ) (a : args) (workspaces : list item) :
  dry_run a = false -> nonempty (cache_dir a) = false ->
  (forall it, In it workspaces -> calls_succeed a (it_env it)) ->
  forall n, rel (loop env a n workspaces) (loop env (dry_of a) n workspaces).
Proof.
  intros Hd Hc. induction workspaces as [|it rest IH]; intros Hs n; cbn [loop].
  - apply rel_ret.
  - of_dry.
    assert (Hstep : rel (process env a n it;; loop env a (S n) rest)
                        (process env (dry_of a) n it;;
                         loop env (dry_of a) (S n) rest)).
    { apply rel_bind; [apply process_alike; auto; apply Hs; left; auto|].
      intros _. apply IH. intros it' Hin; apply Hs; right; auto. }
    destruct (limit_workspaces a =? 0)%Z;
      [|destruct (Z.of_nat n >? limit_workspaces a)%Z]; auto.
    apply rel_log; reflexivity.
Qed.

Lemma setup_alike (env : environ) (a : args) :
  dry_run a = false -> nonempty (cache_dir a) = false ->
  rel (setup env a) (setup env (dry_of a)).
Proof.
  intros Hd Hc. unfold setup, when. of_dry. flags.
  apply rel_bind; [apply rel_banner | intros _; apply rel_ret].
Qed.

Lemma report_alike (env : environ) (a : args) :
  rel (report env a) (report env (dry_of a)).
Proof.
  unfold report.
  apply rel_bind; [apply rel_get_skipped | intros skipped].
  apply rel_bind; [repeat rel_step|intros _].
  apply rel_get_uploaded; intros x y.
  repeat rel_step.
Qed.

(** A live run without cache directory whose own calls succeed and its dry
    run end the same way, with as many upload entries in the log at every
    level. *)
Lemma run_alike (env : environ) (a : args) (workspaces : list item)
    (fs : list (str * file_content)) :
  dry_run a = false -> nonempty (cache_dir a) = false ->
  (forall it, In it workspaces -> calls_succeed a (it_env it)) ->
  fst (run env a workspaces fs) = fst (run env (dry_of a) workspaces fs)
  /\ alike (snd (run env a workspaces fs))
           (snd (run env (dry_of a) workspaces fs)).
Proof.
  intros Hd Hc Hs. unfold run, main.
  apply (rel_bind (setup env a) (setup env (dry_of a))).
  - apply setup_alike; auto.
  - intros _. apply rel_bind; [apply loop_alike; auto|].
    intros _. apply report_alike.
  - apply alike_refl.
Qed.

End SideBySide.

(* ------------------------------------------------------------------ *)
(** ** Claims on the processing loop *)

Module Orchestrator.
Import Invariant RunFacts SideBySide.

(** C5, as the code has it.  In a run that reaches its end, a workspace
    whose lock attempt was answered by Conflict occurs exactly once in the
    skip list, which has no duplicates and is what the run writes last to the
    skip file, once. *)
Theorem conflict_skipped_once (env : environ) (a : args)
    (workspaces : list item) (fs : list (str * file_content)) (st : state)
    (i : nat) (it : item) :
  run env a workspaces fs = (Ok tt, st) ->
  skip_lock a = false -> dry_run a = false ->
  nth_error workspaces i = Some it ->
  within_limit a i ->
  lock_response (it_env it) = Raise TFCHTTPConflict ->
  occurrences (it_ws it) (skipped_workspaces st) = 1
  /\ NoDup (skipped_workspaces st)
  /\ exists before,
       effects st
       = before ++ [WriteSkipped (skipped_workspaces_file env)
                      (skipped_workspaces st)]
       /\ forallb not_skipped_write before = true.
Proof.
  intros Hrun Hsl Hdr Hi Hw Hr.
  assert (Hl : locking a = true) by (unfold locking; rewrite Hsl, Hdr; reflexivity).
  unfold run, main, bind in Hrun.
  destruct (setup_post env a (initial_state fs))
    as [(_ & N1 & (l1 & E1 & A1) & _) X1].
  destruct (setup env a (initial_state fs)) as [[[] | e] s1];
    [|specialize (X1 e eq_refl); discriminate].
  pose proof (loop_conflict env a Hl workspaces 0 s1 i it Hi Hw Hr) as Hin.
  destruct (loop_post env a _ _ _ any_exn eq_refl workspaces
              (fun it _ n => process_grows env a n it) 1 s1)
    as [(_ & N2 & (l2 & E2 & A2) & _) _].
  destruct (loop env a 1 workspaces s1) as [[[] | e] s2]; [|discriminate].
  destruct (report_result env a s2) as (_ & R1 & _ & R2).
  destruct (report env a s2) as [r s3]. injection Hrun as _ <-.
  cbn in *. specialize (Hin eq_refl).
  assert (Hn : NoDup (skipped_workspaces s2)) by (apply N2, N1; constructor).
  rewrite R1. repeat split; auto using occurrences_NoDup.
  exists (l1 ++ l2). rewrite R2, E2, E1, forallb_app, A1, A2.
  destruct (skipped_workspaces s2); [destruct Hin|]. cbn.
  rewrite <- app_assoc. auto.
Qed.

Lemma conflict_skipped_once_witness :
  let workspaces :=
    [mkItem Sample.app_dev 3 (Sample.locked "https://archivist/1");
     mkItem Sample.api_prod 3 (Sample.all_ok "https://archivist/2" []);
     mkItem Sample.app_dev 3 (Sample.locked "https://archivist/1")] in
  let st := snd (run Sample.env Sample.live workspaces []) in
  occurrences Sample.app_dev (skipped_workspaces st) = 1.
Proof.
  intros workspaces st.
  refine (proj1 (conflict_skipped_once Sample.env Sample.live workspaces [] st 2
                   (mkItem Sample.app_dev 3 (Sample.locked "https://archivist/1"))
                   _ eq_refl eq_refl eq_refl _ eq_refl)).
  - vm_compute; reflexivity.
  - left; reflexivity.
Defined.

(** C5 as stated, for every run, fails: the skip list is written after the
    loop only.  In a live run over two workspaces, the lock of the first is
    answered by Conflict and the download of the second by status 500: the
    run ends with the HTTP error and no skip file is written, so that the
    first workspace is in no persisted list. *)
Lemma conflict_not_persisted_when_run_aborts :
  ~ (forall (env : environ) (a : args) (workspaces : list item)
            (fs : list (str * file_content)) (i : nat) (it : item),
        skip_lock a = false -> dry_run a = false ->
        nth_error workspaces i = Some it ->
        within_limit a i ->
        lock_response (it_env it) = Raise TFCHTTPConflict ->
        exists path skipped,
          In (WriteSkipped path skipped)
             (effects (snd (run env a workspaces fs)))
          /\ occurrences (it_ws it) skipped = 1).
Proof.
  intros H.
  pose (failing :=
          mkResponses (Ok tt) (Ok (Sample.meta "https://archivist/2"))
                      (Ok (Sample.meta "https://archivist/2"))
                      (Ok (mkResponse 500 [])) (Ok tt) (Ok tt) (Ok tt)).
  destruct (H Sample.env Sample.live
              [mkItem Sample.app_dev 2 (Sample.locked "https://archivist/1");
               mkItem Sample.api_prod 2 failing]
              [] 0 (mkItem Sample.app_dev 2 (Sample.locked "https://archivist/1"))
              eq_refl eq_refl eq_refl (or_introl eq_refl) eq_refl)
    as (path & skipped & Hin & _).
  vm_compute in Hin.
  repeat (destruct Hin as [Hin | Hin]; [discriminate Hin|]).
  exact Hin.
Qed.

(** C6, at a run of two workspaces of which the first has no stored state:
    the run ends normally, one upload was made, the skip list is empty, and
    the counter of uploaded workspaces that is reported is 2. *)
Theorem uploaded_counter_counts_turns :
  let workspaces :=
    [mkItem Sample.app_dev 2 Sample.no_state;
     mkItem Sample.api_prod 2 (Sample.all_ok "https://archivist/2" [])] in
  let out := run Sample.env Sample.live workspaces [] in
  fst out = Ok tt
  /\ count_effects is_upload (snd out) = 1
  /\ skipped_workspaces (snd out) = []
  /\ uploaded_ws_count (snd out) = 2
  /\ In (INFO, StatsUploaded 2) (LOG (snd out)).
Proof.
  vm_compute. repeat split; auto 20.
Qed.

(** C7, as the code has it.  The dry run of a command line locks, unlocks
    and uploads nothing, makes no cache directory and writes no cache file;
    it writes no file at all when no request is answered by Conflict; its log
    has no entry that announces a lock, an unlock or a write to the cache.
    When the live run has no cache directory and the calls only it makes
    succeed, both runs end the same way and log as many upload entries, at
    every log level. *)
Theorem dry_run_effects_and_log (env : environ) (a : args)
    (workspaces : list item) (fs : list (str * file_content)) :
  dry_run a = false ->
  let live := run env a workspaces fs in
  let dry := run env (dry_of a) workspaces fs in
  count_effects is_lock (snd dry) = 0
  /\ count_effects is_unlock (snd dry) = 0
  /\ count_effects is_upload (snd dry) = 0
  /\ count_effects is_cache_write (snd dry) = 0
  /\ (Forall (fun it => conflict_free (it_env it)) workspaces ->
      count_effects is_file_write (snd dry) = 0)
  /\ count_log describes_lock_or_cache_write (LOG (snd dry)) = 0
  /\ (nonempty (cache_dir a) = false ->
      (forall it, In it workspaces -> calls_succeed a (it_env it)) ->
      fst dry = fst live
      /\ forall threshold,
           tally describes_upload threshold (LOG (snd dry))
           = tally describes_upload threshold (LOG (snd live))).
Proof.
  intros Hd live dry. subst live dry.
  destruct (run_dry env (dry_of a) workspaces fs eq_refl)
    as (l & tail & E & A & T & L & C).
  assert (Hnone : forall Q : effect -> bool,
             (forall x, read_only x = true -> Q x = false) ->
             (forall path skipped, Q (WriteSkipped path skipped) = false) ->
             count_effects Q (snd (run env (dry_of a) workspaces fs)) = 0).
  { intros Q HQ HW. unfold count_effects. rewrite E, filter_app.
    rewrite (filter_excluded read_only Q l HQ A).
    destruct T as [-> | (path & skipped & ->)]; cbn; [|rewrite HW]; reflexivity. }
  repeat split.
  - apply Hnone; [intros []; cbn; congruence | reflexivity].
  - apply Hnone; [intros []; cbn; congruence | reflexivity].
  - apply Hnone; [intros []; cbn; congruence | reflexivity].
  - apply Hnone; [intros []; cbn; congruence | reflexivity].
  - intros Hf. unfold count_effects. rewrite E, (C Hf), app_nil_r.
    rewrite (filter_excluded read_only is_file_write l); auto.
    intros []; cbn; congruence.
  - unfold count_log.
    rewrite (filter_excluded (fun e => dry_logged (snd e))
               (fun e => describes_lock_or_cache_write (snd e))); auto.
    intros [lv m]; unfold dry_logged; cbn.
    destruct (describes_lock_or_cache_write m); [discriminate | reflexivity].
  - symmetry. apply (run_alike env a workspaces fs); auto.
  - intros lvl. symmetry.
    destruct (run_alike env a workspaces fs Hd H H0) as (_ & _ & _ & _ & Ht).
    apply Ht.
Qed.

Lemma dry_run_effects_and_log_witness :
  let workspaces :=
    [mkItem Sample.app_dev 2 Sample.no_state;
     mkItem Sample.api_prod 2 (Sample.all_ok "https://archivist/2" [])] in
  tally describes_upload INFO
    (LOG (snd (run Sample.env (dry_of Sample.live) workspaces [])))
  = tally describes_upload INFO
      (LOG (snd (run Sample.env Sample.live workspaces []))).
Proof.
  intros workspaces.
  destruct (dry_run_effects_and_log Sample.env Sample.live workspaces []
              eq_refl) as (_ & _ & _ & _ & _ & _ & H).
  apply H; [reflexivity|].
  intros it [<- | [<- | []]]; (split; [reflexivity|]); intros _;
    (split; [reflexivity|]); (split; [reflexivity|]); left; reflexivity.
Defined.

(** C7 as stated fails in both parts.  On the effects: the skip file is
    written in a dry run too; with a metadata request answered by Conflict
    the dry run over one workspace puts it on the skip list and writes the
    file.  On the log: with locking on, the live run of one workspace logs
    four entries about its actions (lock, unlock and two for the upload), its
    dry run two. *)
Lemma dry_run_writes_and_logs_less :
  ~ (forall (env : environ) (a : args) (workspaces : list item)
            (fs : list (str * file_content)),
        dry_run a = false ->
        count_effects is_file_write (snd (run env (dry_of a) workspaces fs))
        = 0)
  /\ ~ (forall (env : environ) (a : args) (workspaces : list item)
              (fs : list (str * file_content)),
          dry_run a = false ->
          count_log describes_action
            (LOG (snd (run env (dry_of a) workspaces fs)))
          = count_log describes_action (LOG (snd (run env a workspaces fs)))).
Proof.
  split; intros H.
  - pose (conflict :=
            mkResponses (Ok tt) (Raise TFCHTTPConflict) (Raise TFCHTTPConflict)
                        (Ok (mkResponse 200 [])) (Ok tt) (Ok tt) (Ok tt)).
    specialize (H Sample.env Sample.live [mkItem Sample.app_dev 1 conflict]
                  [] eq_refl).
    vm_compute in H. discriminate H.
  - specialize (H Sample.env Sample.live
                  [mkItem Sample.api_prod 1
                     (Sample.all_ok "https://archivist/2" [])]
                  [] eq_refl).
    vm_compute in H. discriminate H.
Qed.

End Orchestrator.

(* ------------------------------------------------------------------ *)
(** ** More on the key derivation *)

Module KeyExtras.
Import Regex RegexFacts KeyFacts KeyDeriver.

Lemma app_same_length {A} (l1 l2 l3 l4 : list A) :
  l1 ++ l2 = l3 ++ l4 -> length l2 = length l4 -> l1 = l3 /\ l2 = l4.
Proof.
  revert l3. induction l1 as [|x l1 IH]; intros [|y l3] H Hl; cbn in *.
  - auto.
  - apply (f_equal (@length A)) in H. cbn in H. rewrite length_app in H. lia.
  - apply (f_equal (@length A)) in H. cbn in H. rewrite length_app in H. lia.
  - injection H as -> H. destruct (IH _ H Hl) as [-> ->]. auto.
Qed.

Lemma map_lower_length (t ws : str) :
  map lower t = map lower ws -> length t = length ws.
Proof.
  intros H. apply (f_equal (@length ascii)) in H.
  rewrite !length_map in H. exact H.
Qed.

(** A case variant of a known name, after any separator that is not a letter
    or digit, is found by the pattern. *)
Lemma search_variant (P T S : str) (c : ascii) :
  In S WELL_KNOWN_WORKSPACES -> map lower T = map lower S ->
  is_alnum c = false ->
  search S (P ++ [c] ++ T) = true.
Proof.
  intros HS HT Hc. destruct (well_known_nonempty_alnum S HS) as [Hne Hal].
  rewrite app_assoc. apply search_at_end; auto.
  rewrite length_app, Nat.add_comm; cbn.
  rewrite <- app_assoc, nth_error_app2 by lia.
  rewrite Nat.sub_diag; cbn. rewrite Hc; reflexivity.
Qed.

Lemma parse_separator (P T S : str) (c : ascii) (order : list str) :
  In S WELL_KNOWN_WORKSPACES ->
  Permutation order WELL_KNOWN_WORKSPACES ->
  map lower T = map lower S ->
  is_alnum c = false ->
  parse_prefixed_workspace (P ++ [c] ++ T) order = (P, S).
Proof.
  intros HS Hp HT Hc. rewrite (parse_order_irrelevant _ _ Hp).
  rewrite (parse_first_match _ S WELL_KNOWN_WORKSPACES HS
             (search_variant P T S c HS HT Hc)).
  - f_equal. rewrite <- (map_lower_length _ _ HT).
    replace (length T + 1) with (length ([c] ++ T)) by (cbn; lia).
    apply drop_last_app.
  - intros w' Hw' Hs'. apply (well_known_exclusive (P ++ [c] ++ T)); auto.
    apply search_variant; auto.
Qed.

(** X1. Any character that is not an ASCII letter or digit separates, and
    the suffix is recognised in any case: [P + c + T] parses to [P] and the
    known name [S] as the set spells it, whenever [T] is [S] up to case. *)
Theorem parse_any_separator_any_case (P T S : str) (c : ascii)
    (order : list str) :
  In S WELL_KNOWN_WORKSPACES ->
  Permutation order WELL_KNOWN_WORKSPACES ->
  map lower T = map lower S ->
  is_alnum c = false ->
  parse_prefixed_workspace (P ++ [c] ++ T) order = (P, S).
Proof. apply parse_separator. Qed.

Lemma parse_any_separator_any_case_witness :
  parse_prefixed_workspace (lit "backend_svc" ++ ["_"%char] ++ lit "PROD")
    (rev WELL_KNOWN_WORKSPACES)
  = (lit "backend_svc", lit "prod").
Proof.
  apply parse_any_separator_any_case.
  - right; right; right; left; reflexivity.
  - apply Permutation_sym, Permutation_rev.
  - reflexivity.
  - reflexivity.
Defined.

(** When the text that matched is not followed by a newline it ends the
    name, and the character before it is not a letter or digit. *)
Lemma search_no_newline (w P T : str) (c : ascii) :
  search w (P ++ [c] ++ T) = true ->
  length T = length w ->
  (forall n, P ++ [c] ++ T <> n ++ [newline]) ->
  is_alnum c = false.
Proof.
  intros Hs Hl Hnl.
  destruct (search_inv _ _ Hs) as (p & t & e & E & Hm & He & Hb).
  destruct He as [-> | ->].
  - rewrite app_nil_r in E. rewrite app_assoc in E.
    destruct (app_same_length _ _ _ _ E) as [Ep Et].
    { rewrite Hl. symmetry. apply map_lower_length; auto. }
    subst p t. rewrite length_app, Nat.add_comm in Hb. cbn in Hb.
    rewrite nth_error_app2 in Hb by lia.
    rewrite Nat.sub_diag in Hb. cbn in Hb.
    apply negb_true_iff in Hb. exact Hb.
  - exfalso. apply (Hnl (p ++ t)). rewrite E, app_assoc. reflexivity.
Qed.

Lemma variant_no_newline (P T S : str) (c : ascii) :
  In S WELL_KNOWN_WORKSPACES -> map lower T = map lower S ->
  forall n, P ++ [c] ++ T <> n ++ [newline].
Proof.
  intros HS HT n E.
  apply (f_equal (fun l => map lower (rev l))) in E.
  rewrite !rev_app_distr, !map_app, !map_rev, HT in E.
  revert S HS T HT E. apply (well_known_cases (fun S => forall T, _ -> _ -> False));
    intros T HT E; vm_compute in E; discriminate E.
Qed.

(** Of the known names only the one a name ends with can match it. *)
Lemma variant_match_same (S w : str) (x : ascii) (tail r : str) :
  In S WELL_KNOWN_WORKSPACES -> In w WELL_KNOWN_WORKSPACES ->
  rev (map lower S) ++ x :: tail = rev (map lower w) ++ r
  \/ rev (map lower S) ++ x :: tail = newline :: rev (map lower w) ++ r ->
  w = S.
Proof.
  intros HS Hw; revert w Hw; revert S HS.
  apply (well_known_cases (fun S => forall w, In w _ -> _ -> w = S));
    apply (well_known_cases (fun w => _ -> w = _));
    intros [H | H]; try reflexivity; vm_compute in H; discriminate H.
Qed.

(** X2. A known name glued to a letter or digit is part of a longer word:
    the name is returned whole, with the empty suffix. *)
Theorem parse_partial_word (P T S : str) (c : ascii) (order : list str) :
  In S WELL_KNOWN_WORKSPACES ->
  Permutation order WELL_KNOWN_WORKSPACES ->
  map lower T = map lower S ->
  is_alnum c = true ->
  parse_prefixed_workspace (P ++ [c] ++ T) order = (P ++ [c] ++ T, []).
Proof.
  intros HS Hp HT Hc. apply parse_no_match. intros w Hw.
  assert (Hw' : In w WELL_KNOWN_WORKSPACES) by (eapply Permutation_in; eauto).
  destruct (search w (P ++ [c] ++ T)) eqn:Hs; [exfalso | reflexivity].
  assert (Ew : w = S).
  { destruct (search_rev _ _ Hs) as (r & Hr).
    assert (E : map lower (rev (P ++ [c] ++ T))
                = rev (map lower S) ++ lower c :: map lower (rev P)).
    { rewrite !rev_app_distr, !map_app, !map_rev, HT, <- app_assoc.
      reflexivity. }
    rewrite E in Hr. eapply variant_match_same; eauto. }
  subst w.
  pose proof (search_no_newline S P T c Hs (map_lower_length _ _ HT)
                (variant_no_newline P T S c HS HT)).
  congruence.
Qed.

Lemma parse_partial_word_witness :
  parse_prefixed_workspace (lit "m" ++ ["y"%char] ++ lit "Dev")
    WELL_KNOWN_WORKSPACES
  = (lit "myDev", []).
Proof.
  apply (parse_partial_word (lit "m") (lit "Dev") (lit "dev") "y"%char).
  - right; left; reflexivity.
  - apply Permutation_refl.
  - reflexivity.
  - reflexivity.
Defined.

(** X3. A known name that is a trailing whole word of the name is the
    suffix returned, and the prefix is the name without the suffix and the
    one character before it. *)
Theorem parse_trailing_whole_word (name w : str) (order : list str) :
  In w WELL_KNOWN_WORKSPACES ->
  Permutation order WELL_KNOWN_WORKSPACES ->
  trailing_whole_word w name = true ->
  parse_prefixed_workspace name order = (drop_last (length w + 1) name, w).
Proof.
  intros Hw Hp Ht. rewrite (parse_order_irrelevant _ _ Hp).
  apply parse_first_match; auto using trailing_search.
  intros w' Hw' Hs'. apply (well_known_exclusive name); auto using trailing_search.
Qed.

Lemma parse_trailing_whole_word_witness :
  parse_prefixed_workspace (lit "net.STG") WELL_KNOWN_WORKSPACES
  = (lit "net", lit "stg").
Proof.
  apply (parse_trailing_whole_word (lit "net.STG") (lit "stg")).
  - right; right; left; reflexivity.
  - apply Permutation_refl.
  - reflexivity.
Defined.

(** X4. For a name without a final newline the converse holds, under every
    iteration order of the known set: when none of the known names is a
    trailing whole word, the name is returned whole. *)
Theorem parse_no_trailing_word (name : str) (order : list str) :
  Permutation order WELL_KNOWN_WORKSPACES ->
  (forall n, name <> n ++ [newline]) ->
  (forall ws, In ws WELL_KNOWN_WORKSPACES ->
              trailing_whole_word ws name = false) ->
  parse_prefixed_workspace name order = (name, []).
Proof.
  intros Hp Hnl Hno. apply parse_without_trailing_word; auto.
  intros ws Hw. apply Hno. apply (Permutation_in ws Hp Hw).
Qed.

Lemma parse_no_trailing_word_witness :
  parse_prefixed_workspace (lit "mydevops") WELL_KNOWN_WORKSPACES
  = (lit "mydevops", []).
Proof.
  apply parse_no_trailing_word.
  - apply Permutation_refl.
  - intros n E. apply (f_equal (@rev ascii)) in E.
    rewrite rev_app_distr in E. discriminate E.
  - apply well_known_cases; reflexivity.
Defined.

(** X5. Two workspaces share a destination key: a name that has no known
    suffix and the same name followed by ["-default"] both go to
    [name/terraform.tfstate]. *)
Theorem key_collision_default (P : str) (order : list str) :
  Permutation order WELL_KNOWN_WORKSPACES ->
  parse_prefixed_workspace P order = (P, []) ->
  s3_object_key (P ++ lit "-default") order = s3_object_key P order
  /\ s3_object_key P order = P ++ lit "/terraform.tfstate".
Proof.
  intros Hp HP. unfold s3_object_key. rewrite HP.
  change (P ++ lit "-default") with (P ++ ["-"%char] ++ lit "default").
  rewrite (parse_separator P (lit "default") (lit "default") "-"%char order);
    [split; reflexivity | left; reflexivity | exact Hp | reflexivity
    | reflexivity].
Qed.

Lemma key_collision_default_witness :
  s3_object_key (lit "app-default") WELL_KNOWN_WORKSPACES
  = s3_object_key (lit "app") WELL_KNOWN_WORKSPACES.
Proof.
  exact (proj1 (key_collision_default (lit "app") WELL_KNOWN_WORKSPACES
                  (Permutation_refl _) eq_refl)).
Defined.

End KeyExtras.

(* ------------------------------------------------------------------ *)
(** ** More on the loop *)

Module LoopExtras.
Import Invariant RunFacts.

Lemma bind_assoc_at {A B C} (m : M A) (k : A -> M B) (h : B -> M C) (s : state) :
  bind (bind m k) h s = bind m (fun a => bind (k a) h) s.
Proof. unfold bind. destruct (m s) as [[a | e] s1]; reflexivity. Qed.

Lemma bind_cong {A B} (m : M A) (k1 k2 : A -> M B) (s : state) :
  (forall a s', k1 a s' = k2 a s') -> bind m k1 s = bind m k2 s.
Proof.
  intros H. unfold bind. destruct (m s) as [[a | e] s1]; [apply H | reflexivity].
Qed.

Lemma loop_reaches_limit (env : environ) (a : args) (l2 : list item) :
  (0 < limit_workspaces a)%Z -> l2 <> [] ->
  forall l1 n s,
    (Z.of_nat (n + length l1) = limit_workspaces a + 1)%Z ->
    loop env a n (l1 ++ l2) s
    = (loop env a n l1;; log INFO (ReachedLimit (limit_workspaces a))) s.
Proof.
  intros Hpos Hne. induction l1 as [|it l1 IH]; intros n s Hn; cbn [app loop];
    cbn [length] in Hn.
  - destruct l2 as [|it l2]; [congruence|]. cbn [loop] in *.
    destruct (limit_workspaces a =? 0)%Z eqn:E0;
      [apply Z.eqb_eq in E0; lia|].
    destruct (Z.of_nat n >? limit_workspaces a)%Z eqn:E1; [reflexivity|].
    rewrite Z.gtb_ltb in E1. apply Z.ltb_ge in E1. lia.
  - destruct (limit_workspaces a =? 0)%Z eqn:E0;
      [apply Z.eqb_eq in E0; lia|].
    destruct (Z.of_nat n >? limit_workspaces a)%Z eqn:E1;
      [apply Z.gtb_lt in E1; lia|].
    rewrite bind_assoc_at. apply bind_cong. intros _ s1.
    apply IH. lia.
Qed.

(** X6. With a positive limit and more workspaces enumerated than the
    limit, the loop is the loop over the first [limit] of them followed by
    the log entry that the limit was reached: no call is made for the others,
    whatever they are. *)
Theorem loop_stops_at_limit (env : environ) (a : args) (l1 l2 : list item)
    (s : state) :
  (0 < limit_workspaces a)%Z ->
  Z.of_nat (length l1) = limit_workspaces a ->
  l2 <> [] ->
  loop env a 1 (l1 ++ l2) s
  = (loop env a 1 l1;; log INFO (ReachedLimit (limit_workspaces a))) s.
Proof.
  intros Hpos Hl Hne. apply loop_reaches_limit; auto. lia.
Qed.

Lemma loop_stops_at_limit_witness :
  let a := with_limit 1 Sample.live in
  let first := mkItem Sample.app_dev 2 (Sample.all_ok "https://archivist/1" []) in
  let second := mkItem Sample.api_prod 2 Sample.no_state in
  loop Sample.env a 1 ([first] ++ [second]) (initial_state [])
  = (loop Sample.env a 1 [first];; log INFO (ReachedLimit 1)) (initial_state []).
Proof.
  intros a first second.
  apply (loop_stops_at_limit Sample.env a [first] [second]).
  - reflexivity.
  - reflexivity.
  - discriminate.
Defined.

Lemma process_limit (env : environ) (a : args) (limit : Z) (n : nat) (it : item) :
  process env (with_limit limit a) n it = process env a n it.
Proof. reflexivity. Qed.

(** X7. A limit that the enumeration does not exceed changes nothing: the
    loop is the loop without limit. *)
Theorem loop_within_limit (env : environ) (a : args) (workspaces : list item)
    (s : state) :
  (Z.of_nat (length workspaces) <= limit_workspaces a)%Z ->
  loop env a 1 workspaces s = loop env (with_limit 0 a) 1 workspaces s.
Proof.
  assert (H : forall l n s,
             (Z.of_nat (n + length l) <= limit_workspaces a + 1)%Z ->
             loop env a n l s = loop env (with_limit 0 a) n l s).
  { induction l as [|it l IH]; intros n s0 Hn; cbn [loop]; [reflexivity|].
    cbn [length] in Hn. cbn [with_limit limit_workspaces Z.eqb].
    rewrite process_limit.
    assert (Hstep : (process env a n it;; loop env a (S n) l) s0
                    = (process env a n it;;
                       loop env (with_limit 0 a) (S n) l) s0).
    { apply bind_cong. intros _ s1. apply IH; lia. }
    destruct (limit_workspaces a =? 0)%Z; [exact Hstep|].
    destruct (Z.of_nat n >? limit_workspaces a)%Z eqn:E1; [|exact Hstep].
    apply Z.gtb_lt in E1. lia. }
  intros Hl. apply H. lia.
Qed.

Lemma loop_within_limit_witness :
  let a := with_limit 2 Sample.live in
  let ws := [mkItem Sample.app_dev 1 (Sample.all_ok "https://archivist/1" [])] in
  loop Sample.env a 1 ws (initial_state [])
  = loop Sample.env (with_limit 0 a) 1 ws (initial_state []).
Proof.
  intros a ws. apply (loop_within_limit Sample.env a ws). cbn. lia.
Defined.

(** X8. A negative limit is accepted and stops the loop at once: nothing is
    processed (0, not a negative number, is what disables the limit). *)
Theorem loop_negative_limit (env : environ) (a : args) (workspaces : list item)
    (n : nat) (s : state) :
  (limit_workspaces a < 0)%Z -> workspaces <> [] ->
  loop env a n workspaces s
  = (Ok tt, add_log (INFO, ReachedLimit (limit_workspaces a)) s).
Proof.
  intros Hneg Hne. destruct workspaces as [|it rest]; [congruence|].
  cbn [loop].
  destruct (limit_workspaces a =? 0)%Z eqn:E0; [apply Z.eqb_eq in E0; lia|].
  destruct (Z.of_nat n >? limit_workspaces a)%Z eqn:E1; [reflexivity|].
  rewrite Z.gtb_ltb in E1. apply Z.ltb_ge in E1. lia.
Qed.

Lemma loop_negative_limit_witness :
  let a := with_limit (-1) Sample.live in
  let ws := [mkItem Sample.app_dev 1 (Sample.all_ok "https://archivist/1" [])] in
  effects (snd (loop Sample.env a 1 ws (initial_state []))) = [].
Proof.
  intros a ws.
  rewrite (loop_negative_limit Sample.env a ws 1 (initial_state []));
    [reflexivity | reflexivity | discriminate].
Defined.

End LoopExtras.

(* ------------------------------------------------------------------ *)
(** ** More on one turn of the loop *)

Module TurnExtras.
Import Invariant RunFacts.

(** The [try] statement, by the outcome of its body. *)
Lemma fetch_state_unfold (env : environ) (a : args) (ws : workspace)
    (r : responses) (s : state) :
  fetch_state env a ws r s
  = let (r0, s0) :=
      match try_body env a ws r s with
      | (Ok x, s') => (Ok (Some x), s')
      | (Raise e, s') =>
          match except_clauses a ws r e with
          | Some h => h s'
          | None => (Raise e, s')
          end
      end in
    match finally_clause a ws r s0 with
    | (Ok _, s2) => (r0, s2)
    | (Raise e, s2) => (Raise e, s2)
    end.
Proof.
  unfold fetch_state, try_finally, try_except, bind.
  destruct (try_body env a ws r s) as [[x | e] s1]; reflexivity.
Qed.

(** *** Interrupts *)

(** X9. An interrupt that arrives inside the [try].  Without locking the
    turn ends with exit status 130.  With locking the workspace is unlocked
    twice, by the handler and by the [finally] clause, and the turn ends with
    exit status 130 unless an unlock raises: an exception of the handler's
    unlock takes the place of the exit, and an exception of the [finally]
    unlock other than Conflict (which is ignored) takes the place of either.
    The skip list is as the interrupt found it. *)
Theorem interrupt_exits_130 (env : environ) (a : args) (ws : workspace)
    (r : responses) (s : state) :
  fst (try_body env a ws r s) = Raise KeyboardInterrupt ->
  let out := fetch_state env a ws r s in
  let s1 := snd (try_body env a ws r s) in
  fst out
  = (if locking a
     then match unlock_response r with
          | Ok _ | Raise TFCHTTPConflict =>
              match interrupt_unlock_response r with
              | Ok _ => Raise (SystemExit 130)
              | Raise e => Raise e
              end
          | Raise e => Raise e
          end
     else Raise (SystemExit 130))
  /\ effects (snd out)
     = effects s1 ++ (if locking a
                      then [Unlock (ws_id ws); Unlock (ws_id ws)]
                      else [])
  /\ skipped_workspaces (snd out) = skipped_workspaces s1.
Proof.
  intros Hi out s1. subst out s1. rewrite fetch_state_unfold.
  destruct (try_body env a ws r s) as [[x | e] s1]; cbn [fst snd] in *;
    [discriminate|]. injection Hi as ->.
  cbn [except_clauses]. unfold finally_clause, when.
  destruct (locking a).
  - destruct (interrupt_unlock_response r) as [[] | e1];
      destruct (unlock_response r) as [[] | e2]; try destruct e2;
      cbn; rewrite <- app_assoc; auto.
  - cbn. rewrite app_nil_r. auto.
Qed.

Lemma interrupt_exits_130_witness :
  let r :=
    mkResponses (Ok tt) (Raise KeyboardInterrupt) (Raise KeyboardInterrupt)
                (Ok (mkResponse 200 [])) (Ok tt) (Ok tt) (Ok tt) in
  fst (fetch_state Sample.env Sample.live Sample.app_dev r (initial_state []))
  = Raise (SystemExit 130).
Proof.
  intros r.
  exact (proj1 (interrupt_exits_130 Sample.env Sample.live Sample.app_dev r
                  (initial_state []) eq_refl)).
Defined.

(** *** A run that does not reach its end *)

(** X10. When a run ends with an exception (an interrupt, an HTTP error, a
    failed upload) the skip file is not written, whatever the skip list
    holds by then. *)
Theorem aborted_run_writes_no_skip_file (env : environ) (a : args)
    (workspaces : list item) (fs : list (str * file_content)) (e : exn) :
  fst (run env a workspaces fs) = Raise e ->
  forallb not_skipped_write (effects (snd (run env a workspaces fs))) = true.
Proof.
  unfold run, main, bind. intros Hrun.
  destruct (setup_post env a (initial_state fs))
    as [(_ & _ & (l1 & E1 & A1) & _) X1].
  destruct (setup env a (initial_state fs)) as [[[] | e0] s1];
    [|specialize (X1 e0 eq_refl); discriminate].
  destruct (loop_post env a _ _ _ any_exn eq_refl workspaces
              (fun it _ n => process_grows env a n it) 1 s1)
    as [(_ & _ & (l2 & E2 & A2) & _) _].
  destruct (loop env a 1 workspaces s1) as [[[] | e1] s2]; cbn [fst snd] in *.
  - destruct (report_result env a s2) as (R & _). congruence.
  - rewrite E2, E1, !forallb_app, A1, A2. reflexivity.
Qed.

Lemma aborted_run_writes_no_skip_file_witness :
  let interrupted :=
    mkResponses (Ok tt) (Raise KeyboardInterrupt) (Raise KeyboardInterrupt)
                (Ok (mkResponse 200 [])) (Ok tt) (Ok tt) (Ok tt) in
  let workspaces :=
    [mkItem Sample.app_dev 2 (Sample.locked "https://archivist/1");
     mkItem Sample.api_prod 2 interrupted] in
  let out := run Sample.env Sample.live workspaces [] in
  skipped_workspaces (snd out) = [Sample.app_dev]
  /\ forallb not_skipped_write (effects (snd out)) = true.
Proof.
  intros interrupted workspaces out. split; [reflexivity|].
  apply (aborted_run_writes_no_skip_file Sample.env Sample.live workspaces []
           (SystemExit 130)).
  reflexivity.
Defined.

(** *** Lock and unlock around a turn *)

Lemma try_body_split (env : environ) (a : args) (ws : workspace)
    (r : responses) :
  try_body env a ws r
  = (when (locking a)
       (log INFO (LockingWorkspace (ws_name ws));;
        call (Lock (ws_id ws)) (lock_response r));;
     after_lock env a ws r).
Proof. reflexivity. Qed.

Lemma after_lock_grows (env : environ) (a : args) (ws : workspace)
    (r : responses) :
  post (after_lock env a ws r) (grows no_upload any_message) any_exn.
Proof. unfold after_lock. post_auto. Qed.

Lemma handler_grows (a : args) (ws : workspace) (r : responses) (e : exn)
    (h : M (option bytes)) :
  except_clauses a ws r e = Some h ->
  post h (grows no_upload any_message) any_exn.
Proof.
  intros Hh. unfold except_clauses in Hh.
  destruct e; try discriminate Hh; injection Hh as <-; repeat post_step.
Qed.

Lemma finally_unlocks (a : args) (ws : workspace) (r : responses) (s : state) :
  locking a = true ->
  effects (snd (finally_clause a ws r s)) = effects s ++ [Unlock (ws_id ws)].
Proof.
  intros Hl. unfold finally_clause, when. rewrite Hl.
  unfold bind, log, modify, call, try_except. cbn.
  destruct (unlock_response r) as [[] | []]; reflexivity.
Qed.

Lemma fetch_state_bracket (env : environ) (a : args) (ws : workspace)
    (r : responses) (s : state) :
  locking a = true ->
  exists mid,
    effects (snd (fetch_state env a ws r s))
    = effects s ++ Lock (ws_id ws) :: mid ++ [Unlock (ws_id ws)]
    /\ forallb no_upload mid = true.
Proof.
  intros Hl. rewrite fetch_state_unfold.
  set (inner := match try_body env a ws r s with
                | (Ok x, s') => (Ok (Some x), s')
                | (Raise e, s') =>
                    match except_clauses a ws r e with
                    | Some h => h s'
                    | None => (Raise e, s')
                    end
                end).
  assert (Hin : exists mid,
             effects (snd inner) = effects s ++ Lock (ws_id ws) :: mid
             /\ forallb no_upload mid = true).
  { subst inner. rewrite try_body_split. unfold when. rewrite Hl.
    unfold bind at 1 2. unfold log, modify, call. cbn [fst snd].
    set (s1 := add_effect (Lock (ws_id ws))
                 (add_log (INFO, LockingWorkspace (ws_name ws)) s)).
    assert (Hh : forall e s2 l,
               effects s2 = effects s1 ++ l -> forallb no_upload l = true ->
               exists mid,
                 effects (snd (match except_clauses a ws r e with
                               | Some h => h s2
                               | None => (Raise e, s2)
                               end))
                 = effects s ++ Lock (ws_id ws) :: mid
                 /\ forallb no_upload mid = true).
    { intros e s2 l E2 A2.
      destruct (except_clauses a ws r e) as [h|] eqn:Eh.
      - destruct (handler_grows a ws r e h Eh s2)
          as [(_ & _ & (l' & E' & A') & _) _].
        exists (l ++ l'). rewrite E', E2. subst s1. cbn.
        rewrite <- !app_assoc, forallb_app, A2, A'. auto.
      - exists l. cbn. rewrite E2. subst s1. cbn.
        rewrite <- !app_assoc. auto. }
    destruct (lock_response r) as [[] | e].
    - destruct (after_lock_grows env a ws r s1)
        as [(_ & _ & (l & E & A) & _) _].
      destruct (after_lock env a ws r s1) as [[x | e] s2]; cbn [fst snd] in *.
      + exists l. rewrite E. subst s1. cbn. rewrite <- !app_assoc. auto.
      + apply (Hh e s2 l); auto.
    - apply (Hh e s1 []); auto. symmetry; apply app_nil_r. }
  destruct Hin as (mid & E & A). destruct inner as [r0 s0]. cbn [snd] in E.
  pose proof (finally_unlocks a ws r s0 Hl) as F.
  exists mid. split; [|exact A].
  destruct (finally_clause a ws r s0) as [[[] | e] s2]; cbn [snd] in *;
    rewrite F, E, <- app_assoc; reflexivity.
Qed.

(** X11. With locking on, the calls of a turn begin with the lock and an
    unlock follows whatever happens in between, where nothing is uploaded; a
    single upload can only come after the unlock. *)
Theorem turn_locks_then_unlocks (env : environ) (a : args) (n : nat)
    (it : item) (s : state) :
  locking a = true ->
  exists mid tail,
    effects (snd (process env a n it s))
    = effects s ++ Lock (ws_id (it_ws it)) :: mid
                ++ Unlock (ws_id (it_ws it)) :: tail
    /\ forallb no_upload mid = true
    /\ (tail = []
        \/ exists data,
             tail = [Upload (s3_bucket_name a)
                       (s3_object_key (ws_name (it_ws it)) WELL_KNOWN_WORKSPACES)
                       data]).
Proof.
  intros Hl.
  assert (Hd : dry_run a = false).
  { unfold locking in Hl. apply andb_true_iff in Hl as [_ Hl].
    apply negb_true_iff in Hl. exact Hl. }
  unfold process. unfold bind at 1. unfold modify at 1. unfold bind at 1.
  destruct (fetch_state_bracket env a (it_ws it) (it_env it)
              (set_total (it_total it) s) Hl) as (mid & E & A).
  cbn [effects set_total] in E.
  destruct (fetch_state env a (it_ws it) (it_env it) (set_total (it_total it) s))
    as [[[data|] | e] s1]; cbn [fst snd] in *.
  - exists mid.
    exists [Upload (s3_bucket_name a)
              (s3_object_key (ws_name (it_ws it)) WELL_KNOWN_WORKSPACES) data].
    split; [|split; [exact A | right; eauto]].
    unfold upload_state, upload_to_s3. rewrite Hd.
    unfold bind, log, modify, call, get. cbn.
    destruct (upload_response (it_env it)) as [[] | e]; cbn;
      rewrite E, <- ?app_assoc; cbn [app]; rewrite <- ?app_assoc;
      reflexivity.
  - exists mid, []. cbn. rewrite E. auto.
  - exists mid, []. cbn. rewrite E. auto.
Qed.

Lemma turn_locks_then_unlocks_witness :
  let it := mkItem Sample.app_dev 1 (Sample.locked "https://archivist/1") in
  exists mid tail,
    effects (snd (process Sample.env Sample.live 1 it (initial_state [])))
    = [] ++ Lock (lit "ws-1") :: mid ++ Unlock (lit "ws-1") :: tail.
Proof.
  intros it.
  destruct (turn_locks_then_unlocks Sample.env Sample.live 1 it
              (initial_state []) eq_refl) as (mid & tail & E & _).
  exists mid, tail. exact E.
Defined.

(** *** The metadata cache *)

(** X12. In a live run with a cache directory and no metadata file cached
    yet for a workspace name, the metadata the service returns for it is
    written to the cache, and the next fetch for that name returns it from
    there without asking the service, whatever the service would answer and
    whichever workspace id carries the name. *)
Theorem metadata_cached_then_reused (a : args) (ws ws' : workspace)
    (r r' : responses) (s : state) (m : metadata) :
  nonempty (cache_dir a) = true ->
  dry_run a = false ->
  read_file (path_join (cache_dir a) (ws_name ws ++ lit ".meta.json")) (files s)
  = None ->
  get_current_response r = Ok m ->
  ws_name ws' = ws_name ws ->
  let path := path_join (cache_dir a) (ws_name ws ++ lit ".meta.json") in
  let out := fetch_metadata a ws r s in
  fst out = Ok m
  /\ effects (snd out)
     = effects s ++ [GetCurrent (ws_id ws); WriteMetadata path m]
  /\ fetch_metadata a ws' r' (snd out)
     = (Ok m, add_log (DEBUG, ReadingMetadataFile path) (snd out)).
Proof.
  intros Hc Hd Hf Hg Hn path out.
  pose proof (MetadataFetcher.cache_path_truthy _ (ws_name ws) Hc) as Ht.
  fold path in Hf, Ht.
  assert (E1 : out
               = (Ok m,
                  put_file path (Json m)
                    (add_effect (WriteMetadata path m)
                       (add_log (DEBUG, WritingMetadataFile path)
                          (add_effect (GetCurrent (ws_id ws))
                             (add_log (DEBUG, RequestingMetadata) s)))))).
  { subst out. unfold fetch_metadata. rewrite Hc. fold path.
    unfold get_tfstate_metadata, try_except, bind, get. cbv beta.
    rewrite Ht, Hf, Hg, Hd. reflexivity. }
  rewrite E1. cbn [fst snd]. repeat split.
  - cbn. rewrite <- app_assoc. reflexivity.
  - unfold fetch_metadata. rewrite Hc, Hn. fold path.
    unfold get_tfstate_metadata, try_except, bind, get. cbv beta.
    rewrite Ht. cbn [files put_file add_effect add_log read_file].
    rewrite str_eqb_refl. reflexivity.
Qed.

Lemma metadata_cached_then_reused_witness :
  let other := mkWorkspace (lit "ws-9") (lit "app-dev") [] in
  let out :=
    fetch_metadata Sample.cached Sample.app_dev
      (Sample.all_ok "https://archivist/1" []) (initial_state []) in
  fst (fetch_metadata Sample.cached other Sample.no_state (snd out))
  = Ok (Sample.meta "https://archivist/1").
Proof.
  intros other out.
  destruct (metadata_cached_then_reused Sample.cached Sample.app_dev other
              (Sample.all_ok "https://archivist/1" []) Sample.no_state
              (initial_state []) (Sample.meta "https://archivist/1")
              eq_refl eq_refl eq_refl eq_refl eq_refl) as (_ & _ & E).
  fold out in E. rewrite E. reflexivity.
Defined.

(** *** The state download *)

(** X13. [get_tfstate_content] makes one request.  A cache file is written
    only after a response without error status, only outside a dry run and
    only to the path given, and it holds exactly the bytes returned. *)
Theorem download_cache_write (url token : str) (file : option str)
    (dry_run : bool) (answer : result response) (s : state) :
  let out := get_tfstate_content url token file dry_run answer s in
  exists written,
    effects (snd out) = effects s ++ HttpGet url token :: written
    /\ (written = []
        \/ exists path data,
             written = [WriteTfstate path data]
             /\ file = Some path /\ dry_run = false
             /\ fst out = Ok data).
Proof.
  intros out. subst out.
  unfold get_tfstate_content, raise_for_status, requests_codes_ok, when.
  unfold bind, log, modify, call, raise, ret. cbn.
  destruct answer as [[st body] | e]; cbn;
    [|exists []; rewrite <- ?app_assoc; auto].
  destruct (st =? 200)%Z eqn:E200; cbn.
  - destruct file as [[|c f]|], dry_run; cbn;
      try (exists []; rewrite <- ?app_assoc; auto; fail).
    exists [WriteTfstate (c :: f) body]. rewrite <- ?app_assoc.
    split; [reflexivity | right; eauto 10].
  - destruct ((400 <=? st) && (st <? 600))%Z; cbn;
      [exists []; rewrite <- ?app_assoc; auto|].
    destruct file as [[|c f]|], dry_run; cbn;
      try (exists []; rewrite <- ?app_assoc; auto; fail).
    exists [WriteTfstate (c :: f) body]. rewrite <- ?app_assoc.
    split; [reflexivity | right; eauto 10].
Qed.

(** *** Whole turns *)

Ltac run_turn :=
  unfold process, fetch_state, try_body, fetch_metadata, get_tfstate_metadata,
    get_tfstate_content, raise_for_status, requests_codes_ok, upload_state,
    upload_to_s3, finally_clause, when.

Lemma process_success (env : environ) (a : args) (n : nat)
    (it : item) (s : state) (m : metadata) (u : str) (resp : response) :
  locking a = true ->
  nonempty (cache_dir a) = false ->
  lock_response (it_env it) = Ok tt ->
  get_current_response (it_env it) = Ok m ->
  hosted_state_download_url m = Some u ->
  download_response (it_env it) = Ok resp ->
  ((400 <=? status_code resp) && (status_code resp <? 600))%Z = false ->
  unlock_response (it_env it) = Ok tt ->
  upload_response (it_env it) = Ok tt ->
  let out := process env a n it s in
  fst out = Ok tt
  /\ effects (snd out)
     = effects s
       ++ [Lock (ws_id (it_ws it));
           GetCurrent (ws_id (it_ws it));
           HttpGet u (TFC_TOKEN env);
           Unlock (ws_id (it_ws it));
           Upload (s3_bucket_name a)
             (s3_object_key (ws_name (it_ws it)) WELL_KNOWN_WORKSPACES)
             (content resp)]
  /\ uploaded_ws_count (snd out) = n
  /\ total_ws_count (snd out) = it_total it
  /\ skipped_workspaces (snd out) = skipped_workspaces s.
Proof.
  intros Hl Hc Hlk Hg Hu Hdl Hst Hun Hup out. subst out.
  assert (Hd : dry_run a = false).
  { unfold locking in Hl. apply andb_true_iff in Hl as [_ Hl].
    apply negb_true_iff in Hl. exact Hl. }
  run_turn. rewrite Hl, Hc, Hd, Hlk, Hg, Hdl, Hun, Hup.
  unfold try_finally, try_except, bind, get, log, modify, call, ret, raise.
  cbn. rewrite Hu. cbn.
  destruct (status_code resp =? 200)%Z; cbn; rewrite ?Hst; cbn;
    rewrite <- ?app_assoc; cbn; auto.
Qed.

(** X14. A live turn with locking in which every call succeeds: the bytes
    uploaded are the bytes downloaded from the URL of the metadata, under
    the key derived from the workspace name, after the workspace is
    unlocked; the counter of uploads becomes the number of the turn. *)
Theorem live_turn_uploads_download (env : environ) (a : args) (n : nat)
    (it : item) (s : state) (m : metadata) (u : str) (resp : response) :
  locking a = true ->
  nonempty (cache_dir a) = false ->
  lock_response (it_env it) = Ok tt ->
  get_current_response (it_env it) = Ok m ->
  hosted_state_download_url m = Some u ->
  download_response (it_env it) = Ok resp ->
  ((400 <=? status_code resp) && (status_code resp <? 600))%Z = false ->
  unlock_response (it_env it) = Ok tt ->
  upload_response (it_env it) = Ok tt ->
  let out := process env a n it s in
  fst out = Ok tt
  /\ effects (snd out)
     = effects s
       ++ [Lock (ws_id (it_ws it));
           GetCurrent (ws_id (it_ws it));
           HttpGet u (TFC_TOKEN env);
           Unlock (ws_id (it_ws it));
           Upload (s3_bucket_name a)
             (s3_object_key (ws_name (it_ws it)) WELL_KNOWN_WORKSPACES)
             (content resp)]
  /\ uploaded_ws_count (snd out) = n
  /\ total_ws_count (snd out) = it_total it
  /\ skipped_workspaces (snd out) = skipped_workspaces s.
Proof. apply process_success. Qed.

Lemma live_turn_uploads_download_witness :
  let it := mkItem Sample.api_prod 1 (Sample.all_ok "https://archivist/2" []) in
  fst (process Sample.env Sample.live 1 it (initial_state [])) = Ok tt.
Proof.
  intros it.
  exact (proj1 (live_turn_uploads_download Sample.env Sample.live 1 it
                  (initial_state []) (Sample.meta "https://archivist/2")
                  (lit "https://archivist/2") (mkResponse 200 [])
                  eq_refl eq_refl eq_refl eq_refl eq_refl eq_refl eq_refl
                  eq_refl eq_refl)).
Defined.

(** X15. A workspace without stored state, met without cache directory and,
    when locking is on, after a lock that succeeded: the one metadata request
    is the only call between lock and unlock; nothing is downloaded or
    uploaded, the skip list and the counter of uploads are untouched and the
    warning is logged.  The turn ends normally, so that the loop goes on with
    the next workspace, unless the unlock raises an exception other than
    Conflict, which then ends the turn. *)
Theorem not_found_turn_moves_on (env : environ) (a : args) (n : nat)
    (it : item) (s : state) :
  nonempty (cache_dir a) = false ->
  get_current_response (it_env it) = Raise TFCHTTPNotFound ->
  (locking a = true -> lock_response (it_env it) = Ok tt) ->
  let out := process env a n it s in
  fst out
  = (if locking a
     then match unlock_response (it_env it) with
          | Ok _ | Raise TFCHTTPConflict => Ok tt
          | Raise e => Raise e
          end
     else Ok tt)
  /\ effects (snd out)
     = effects s
       ++ (if locking a then [Lock (ws_id (it_ws it))] else [])
       ++ [GetCurrent (ws_id (it_ws it))]
       ++ (if locking a then [Unlock (ws_id (it_ws it))] else [])
  /\ uploaded_ws_count (snd out) = uploaded_ws_count s
  /\ skipped_workspaces (snd out) = skipped_workspaces s
  /\ In (WARNING, NoStoredStates (ws_name (it_ws it))) (LOG (snd out)).
Proof.
  intros Hc Hg Hlock out. subst out. run_turn. rewrite Hc, Hg.
  destruct (locking a).
  - rewrite (Hlock eq_refl).
    unfold try_finally, try_except, bind, get, log, modify, call, ret, raise.
    destruct (unlock_response (it_env it)) as [[] | e]; try destruct e;
      cbn; rewrite <- ?app_assoc; cbn;
      repeat split; auto; apply in_or_app; cbn; auto 10.
  - unfold try_finally, try_except, bind, get, log, modify, call, ret, raise.
    cbn. rewrite <- ?app_assoc; cbn.
    repeat split; auto; apply in_or_app; cbn; auto 10.
Qed.

Lemma not_found_turn_moves_on_witness :
  let it := mkItem Sample.app_dev 1 Sample.no_state in
  fst (process Sample.env Sample.live 1 it (initial_state [])) = Ok tt.
Proof.
  intros it.
  refine (proj1 (not_found_turn_moves_on Sample.env Sample.live 1 it
                   (initial_state []) eq_refl eq_refl _)).
  intros _. reflexivity.
Defined.

End TurnExtras.

(* ------------------------------------------------------------------ *)
(** ** Who gets on the skip list *)

Module SkipList.
Import Invariant RunFacts.

(** Relations that look at the skip list only are respected by all the
    bookkeeping and by every outside call. *)
Lemma skipped_frame (Q : list workspace -> list workspace -> Prop) :
  (forall l, Q l l) ->
  (forall l1 l2 l3, Q l1 l2 -> Q l2 l3 -> Q l1 l3) ->
  Frame (fun s s' => Q (skipped_workspaces s) (skipped_workspaces s'))
        any_effect any_message.
Proof.
  intros Hr Ht. constructor; intros; cbn; eauto.
Qed.

#[export] Instance adds_frame (ws : workspace) :
  Frame (adds ws) any_effect any_message.
Proof.
  apply (skipped_frame (fun l l' => forall w, In w l' -> In w l \/ w = ws)).
  - auto.
  - intros l1 l2 l3 H12 H23 w Hw.
    destruct (H23 w Hw) as [H | H]; auto.
Qed.

#[export] Instance keeps_frame : Frame keeps any_effect any_message.
Proof.
  apply (skipped_frame (fun l l' => l' = l)); congruence.
Qed.

#[export] Instance within_frame (W : workspace -> Prop) :
  Frame (within W) any_effect any_message.
Proof.
  apply (skipped_frame (fun l l' => forall w, In w l' -> In w l \/ W w)).
  - auto.
  - intros l1 l2 l3 H12 H23 w Hw.
    destruct (H23 w Hw) as [H | H]; auto.
Qed.

Lemma post_weaken {A} (m : M A) (R R' : state -> state -> Prop)
    (E E' : exn -> bool) :
  post m R E ->
  (forall s s', R s s' -> R' s s') ->
  (forall e, E e = true -> E' e = true) ->
  post m R' E'.
Proof.
  intros Hm HR HE s. destruct (Hm s) as [H1 H2]. split; auto.
Qed.

(** A [try] whose body raises within [E1]; its handlers may raise
    anything. *)
Lemma post_try_except_from {A} (R : state -> state -> Prop)
    (allowed : effect -> bool) (logged : message -> bool)
    `{Frame R allowed logged} (E1 : exn -> bool)
    (m : M A) (handler : exn -> option (M A)) :
  post m R E1 ->
  (forall e h, E1 e = true -> handler e = Some h -> post h R any_exn) ->
  post (try_except m handler) R any_exn.
Proof.
  intros Hm Hh s. unfold try_except. destruct (Hm s) as [H1 H2].
  destruct (m s) as [[x | e] s1]; cbn in *; [split; auto|].
  destruct (handler e) as [h|] eqn:Eh; cbn; [|split; auto].
  destruct (Hh e h (H2 e eq_refl) Eh s1) as [H3 H4]. split; auto.
  eapply frame_trans; eauto.
Qed.

Lemma post_skip_adds (ws : workspace) (E : exn -> bool) :
  post (skip ws) (adds ws) E.
Proof.
  intros s. unfold skip, bind, get, when, modify, ret.
  destruct (existsb (workspace_eqb ws) (skipped_workspaces s)); cbn;
    (split; [|discriminate]); intros w Hw; cbn in Hw; auto.
  apply in_app_or in Hw as [Hw | [<- | []]]; auto.
Qed.

(** A turn can only add its own workspace to the skip list. *)
Lemma process_adds (env : environ) (a : args) (n : nat) (it : item) :
  post (process env a n it) (adds (it_ws it)) any_exn.
Proof.
  unfold_program. repeat first [apply post_skip_adds | post_step].
Qed.

Lemma is_conflict_false {A} (x : result A) :
  is_conflict x = false -> x <> Raise TFCHTTPConflict.
Proof. intros H ->. discriminate H. Qed.

(** A turn in which no call inside the [try] is answered by Conflict leaves
    the skip list alone. *)
Lemma process_keeps (env : environ) (a : args) (n : nat) (it : item) :
  answers_conflict (it_env it) = false ->
  post (process env a n it) keeps any_exn.
Proof.
  intros Hno. unfold answers_conflict in Hno.
  apply orb_false_iff in Hno as [Hno H4].
  apply orb_false_iff in Hno as [Hno H3].
  apply orb_false_iff in Hno as [H1 H2].
  apply is_conflict_false in H1, H2, H3, H4.
  assert (Hcf : conflict_free (it_env it)) by (repeat split; auto).
  unfold process.
  apply post_bind; [apply post_set_total | intros _].
  apply post_bind.
  - unfold fetch_state. apply post_try_finally.
    + apply (post_try_except_from keeps any_effect any_message not_conflict).
      * post_auto.
      * intros e h He Hh. unfold except_clauses in Hh.
        destruct e; cbn in He; try discriminate He; try discriminate Hh;
          injection Hh as <-; repeat post_step.
    + post_auto.
  - intros [data|]; post_auto.
Qed.

Lemma setup_keeps (env : environ) (a : args) :
  post (setup env a) keeps any_exn.
Proof. unfold setup. post_auto. Qed.

(** X16. Whatever the run and however it ends, every workspace on the skip
    list was enumerated and met a Conflict answer to one of the calls inside
    the [try] of its turn (the lock, a metadata request or the download). *)
Theorem skip_list_only_conflicts (env : environ) (a : args)
    (workspaces : list item) (fs : list (str * file_content)) (w : workspace) :
  In w (skipped_workspaces (snd (run env a workspaces fs))) ->
  exists it, In it workspaces /\ it_ws it = w
             /\ answers_conflict (it_env it) = true.
Proof.
  set (W := fun w => exists it, In it workspaces /\ it_ws it = w
                                /\ answers_conflict (it_env it) = true).
  assert (Hp : forall it, In it workspaces ->
                          forall n, post (process env a n it) (within W) any_exn).
  { intros it Hin n. destruct (answers_conflict (it_env it)) eqn:Ec.
    - apply (post_weaken _ (adds (it_ws it)) _ any_exn any_exn);
        [apply process_adds | | auto].
      intros s s' H w' Hw'. destruct (H w' Hw') as [H' | ->]; auto.
      right. exists it; auto.
    - apply (post_weaken _ keeps _ any_exn any_exn);
        [apply process_keeps; auto | | auto].
      intros s s' H w' Hw'. left. rewrite <- H. exact Hw'. }
  unfold run, main, bind. intros Hw.
  destruct (setup_keeps env a (initial_state fs)) as [K1 _].
  destruct (setup env a (initial_state fs)) as [[[] | e0] s1];
    cbn [fst snd] in *; [|rewrite K1 in Hw; destruct Hw].
  destruct (loop_post env a (within W) _ _ any_exn eq_refl workspaces Hp 1 s1)
    as [K2 _].
  assert (Hs1 : forall w', In w' (skipped_workspaces
                                    (snd (loop env a 1 workspaces s1))) -> W w').
  { intros w' Hw'. destruct (K2 w' Hw') as [H | H]; auto.
    rewrite K1 in H. destruct H. }
  destruct (loop env a 1 workspaces s1) as [[[] | e1] s2]; cbn [fst snd] in *.
  - destruct (report_result env a s2) as (_ & R1 & _).
    rewrite R1 in Hw. apply Hs1, Hw.
  - apply Hs1, Hw.
Qed.

Lemma skip_list_only_conflicts_witness :
  let workspaces :=
    [mkItem Sample.app_dev 2 (Sample.locked "https://archivist/1");
     mkItem Sample.api_prod 2 (Sample.all_ok "https://archivist/2" [])] in
  exists it, In it workspaces /\ it_ws it = Sample.app_dev
             /\ answers_conflict (it_env it) = true.
Proof.
  intros workspaces.
  apply (skip_list_only_conflicts Sample.env Sample.live workspaces []).
  left; reflexivity.
Defined.

End SkipList.

(* ------------------------------------------------------------------ *)
(** ** Enumeration *)

Module Enumerator.

Lemma get_tfc_workspaces_from (list_page : nat -> listing) :
  forall k fuel p,
    (forall q, p <= q < p + k -> has_next (list_page q) = true) ->
    has_next (list_page (p + k)) = false ->
    k < fuel ->
    get_tfc_workspaces list_page fuel p
    = Some (flat_map (page_pairs list_page) (seq p (S k))).
Proof.
  induction k as [|k IH]; intros fuel p Hnext Hlast Hfuel;
    (destruct fuel as [|fuel]; [lia|]); cbn [get_tfc_workspaces].
  - rewrite Nat.add_0_r in Hlast. rewrite Hlast. cbn.
    rewrite app_nil_r. reflexivity.
  - rewrite (Hnext p) by lia. cbn [negb].
    rewrite (IH fuel (p + 1)).
    + rewrite Nat.add_1_r. reflexivity.
    + intros q Hq. apply Hnext. lia.
    + replace (p + 1 + k) with (p + S k) by lia. exact Hlast.
    + lia.
Qed.

(** X17. When the service announces a next page on pages 1 to [k] and none
    on page [k + 1], the enumeration is the workspaces of pages 1 to
    [k + 1] in order, each paired with the total count of its own page; one
    request per page suffices and later pages are never asked for. *)
Theorem get_tfc_workspaces_all_pages (list_page : nat -> listing)
    (k fuel : nat) :
  (forall q, 1 <= q <= k -> has_next (list_page q) = true) ->
  has_next (list_page (S k)) = false ->
  k < fuel ->
  get_tfc_workspaces list_page fuel 1
  = Some (flat_map (page_pairs list_page) (seq 1 (S k))).
Proof.
  intros Hnext Hlast Hfuel. apply get_tfc_workspaces_from; auto.
  intros q Hq. apply Hnext. lia.
Qed.

Lemma get_tfc_workspaces_all_pages_witness :
  let list_page := fun page =>
    match page with
    | 1 => mkListing [Sample.app_dev] (Some 2) 2
    | _ => mkListing [Sample.api_prod] None 2
    end in
  get_tfc_workspaces list_page 2 1
  = Some [(Sample.app_dev, 2); (Sample.api_prod, 2)].
Proof.
  intros list_page.
  apply (get_tfc_workspaces_all_pages list_page 1 2).
  - intros q Hq. assert (q = 1) as -> by lia. reflexivity.
  - reflexivity.
  - lia.
Defined.

(** X18. When the service announces a next page on every page, the
    enumeration never ends: no number of requests completes it. *)
Theorem get_tfc_workspaces_endless (list_page : nat -> listing) :
  (forall q, has_next (list_page q) = true) ->
  forall fuel p, get_tfc_workspaces list_page fuel p = None.
Proof.
  intros Hnext. induction fuel as [|fuel IH]; intros p; cbn; [reflexivity|].
  rewrite Hnext. cbn. rewrite IH. reflexivity.
Qed.

Lemma get_tfc_workspaces_endless_witness :
  get_tfc_workspaces (fun page => mkListing [] (Some (page + 1)) 0) 5 1 = None.
Proof.
  apply get_tfc_workspaces_endless.
  intros q. unfold has_next. cbn. rewrite Nat.add_1_r. reflexivity.
Defined.

End Enumerator.

(* ------------------------------------------------------------------ *)
(** ** Grouping of the CSV rows *)

Module Explorer.
Import KeyFacts.

Lemma str_eqb_false (a b : str) : str_eqb a b = false <-> a <> b.
Proof.
  destruct (str_eqb a b) eqn:E.
  - apply str_eqb_eq in E. split; [discriminate | congruence].
  - split; auto. intros _ H. apply str_eqb_eq in H. congruence.
Qed.

Lemma dict_get_append (k k0 x : str) (d : ws_dict) :
  dict_get k (dict_append k0 x d)
  = if str_eqb k0 k
    then Some (match dict_get k d with
               | Some v => v ++ [x]
               | None => [x]
               end)
    else dict_get k d.
Proof.
  induction d as [|[k' v] d IH]; cbn.
  - destruct (str_eqb k0 k); reflexivity.
  - destruct (str_eqb k' k0) eqn:E1; cbn.
    + apply str_eqb_eq in E1; subst k'.
      destruct (str_eqb k0 k); reflexivity.
    + destruct (str_eqb k' k) eqn:E2; [|exact IH].
      apply str_eqb_eq in E2; subst k'.
      apply str_eqb_false in E1.
      destruct (str_eqb k0 k) eqn:E3; [|reflexivity].
      apply str_eqb_eq in E3. congruence.
Qed.

Lemma group_rows_snoc (names : list str) (name : str) :
  group_rows (names ++ [name]) = add_row (group_rows names) name.
Proof. unfold group_rows. rewrite fold_left_app. reflexivity. Qed.

Lemma add_row_append (d : ws_dict) (name : str) :
  add_row d name = dict_append (row_group name) (row_state name) d.
Proof.
  unfold add_row, row_group, row_state.
  destruct (parse_prefixed_workspace name WELL_KNOWN_WORKSPACES); reflexivity.
Qed.

(** X19. The group of a key holds the state names of exactly the rows that
    go to that key, in the order of the rows; a key no row goes to is not in
    the dictionary. *)
Theorem group_rows_get (names : list str) (k : str) :
  dict_get k (group_rows names)
  = match filter (fun name => str_eqb (row_group name) k) names with
    | [] => None
    | rows => Some (map row_state rows)
    end.
Proof.
  induction names as [|name names IH] using rev_ind; [reflexivity|].
  rewrite group_rows_snoc, add_row_append, dict_get_append, IH, filter_app.
  cbn [filter]. destruct (str_eqb (row_group name) k).
  - destruct (filter (fun name0 => str_eqb (row_group name0) k) names)
      as [|r rows]; [reflexivity|].
    cbn [app map]. rewrite map_app. reflexivity.
  - rewrite app_nil_r. reflexivity.
Qed.

Lemma parse_suffix (name : str) (l : list str) :
  snd (parse_prefixed_workspace name l) = []
  \/ In (snd (parse_prefixed_workspace name l)) l.
Proof.
  induction l as [|w l IH]; cbn [parse_prefixed_workspace In snd]; auto.
  destruct (Regex.search w name); cbn [snd]; [right; left; reflexivity|].
  destruct IH as [IH | IH]; [left | right; right]; exact IH.
Qed.

Lemma row_group_known (name : str) : In (row_group name) WELL_KNOWN_WORKSPACES.
Proof.
  unfold row_group.
  destruct (parse_suffix name WELL_KNOWN_WORKSPACES) as [E | H].
  - rewrite E. left; reflexivity.
  - destruct (snd (parse_prefixed_workspace name WELL_KNOWN_WORKSPACES));
      [left; reflexivity | exact H].
Qed.

Lemma dict_append_keys (k x : str) (d : ws_dict) :
  map fst (dict_append k x d)
  = if existsb (str_eqb k) (map fst d) then map fst d else map fst d ++ [k].
Proof.
  induction d as [|[k' v] d IH]; cbn; [reflexivity|].
  destruct (str_eqb k' k) eqn:E; cbn.
  - apply str_eqb_eq in E; subst k'. rewrite str_eqb_refl. reflexivity.
  - rewrite IH. apply str_eqb_false in E.
    destruct (str_eqb k k') eqn:E'; [apply str_eqb_eq in E'; congruence|].
    cbn. destruct (existsb (str_eqb k) (map fst d)); reflexivity.
Qed.

(** X20. The keys of the dictionary are distinct and are known names (rows
    without suffix go to ["default"], no key is empty), and no group is
    empty. *)
Theorem group_rows_keys (names : list str) :
  NoDup (map fst (group_rows names))
  /\ forall k v, In (k, v) (group_rows names) ->
                 In k WELL_KNOWN_WORKSPACES /\ v <> [].
Proof.
  induction names as [|name names [IH1 IH2]] using rev_ind.
  - split; [constructor | intros k v []].
  - rewrite group_rows_snoc, add_row_append. split.
    + rewrite dict_append_keys.
      destruct (existsb (str_eqb (row_group name)) (map fst (group_rows names)))
        eqn:E; [exact IH1|].
      apply NoDup_app; auto.
      * repeat constructor; intros [].
      * intros x Hx [<- | []].
        assert (existsb (str_eqb (row_group name)) (map fst (group_rows names))
                = true).
        { apply existsb_exists. exists (row_group name). split; auto.
          apply str_eqb_refl. }
        congruence.
    + generalize (group_rows names) IH2. clear IH1 IH2.
      induction w as [|[k' v'] d IHd]; intros IH2 k v Hin; cbn in Hin.
      * destruct Hin as [[= <- <-] | []].
        split; [apply row_group_known | discriminate].
      * destruct (str_eqb k' (row_group name)) eqn:E.
        -- destruct Hin as [[= <- <-] | Hin].
           ++ split; [apply (IH2 k' v'); left; reflexivity|].
              intros H. apply app_eq_nil in H as [_ H]. discriminate.
           ++ apply IH2. right; exact Hin.
        -- destruct Hin as [[= <- <-] | Hin].
           ++ apply IH2. left; reflexivity.
           ++ apply IHd; auto. intros k0 v0 H0. apply IH2. right; exact H0.
Qed.

Lemma text_lines_append (k x : str) (d : ws_dict) :
  Permutation (text_lines (dict_append k x d)) ((k, x) :: text_lines d).
Proof.
  induction d as [|[k' v] d IH]; cbn; [reflexivity|].
  destruct (str_eqb k' k) eqn:E; cbn.
  - apply str_eqb_eq in E; subst k'. rewrite map_app. cbn.
    rewrite <- app_assoc. cbn.
    symmetry. apply Permutation_middle.
  - rewrite IH. symmetry. apply Permutation_middle.
Qed.

(** X21. The text output has one line per row, the row's group and state
    name: nothing is lost and nothing is repeated. *)
Theorem text_lines_rows (names : list str) :
  Permutation (text_lines (group_rows names))
              (map (fun name => (row_group name, row_state name)) names).
Proof.
  induction names as [|name names IH] using rev_ind; [reflexivity|].
  rewrite group_rows_snoc, add_row_append, text_lines_append, IH, map_app.
  cbn. apply Permutation_cons_append.
Qed.

End Explorer.

(* ------------------------------------------------------------------ *)
(** ** Whole runs *)

Module RunExtras.
Import Invariant RunFacts SkipList TurnExtras.

(** X22. A run in which no call inside a [try] is answered by Conflict has
    an empty skip list and, however it ends, does not write the skip file:
    a file left by an earlier run stays as it is. *)
Theorem no_conflict_no_skip_file (env : environ) (a : args)
    (workspaces : list item) (fs : list (str * file_content)) :
  (forall it, In it workspaces -> answers_conflict (it_env it) = false) ->
  let st := snd (run env a workspaces fs) in
  skipped_workspaces st = []
  /\ forallb not_skipped_write (effects st) = true.
Proof.
  intros Hno st. subst st. unfold run, main, bind.
  destruct (setup_keeps env a (initial_state fs)) as [K1 _].
  destruct (setup_post env a (initial_state fs))
    as [(_ & _ & (l1 & E1 & A1) & _) X1].
  destruct (setup env a (initial_state fs)) as [[[] | e0] s1];
    [|specialize (X1 e0 eq_refl); discriminate].
  destruct (loop_post env a keeps _ _ any_exn eq_refl workspaces
              (fun it Hin n => process_keeps env a n it (Hno it Hin)) 1 s1)
    as [K2 _].
  destruct (loop_post env a _ _ _ any_exn eq_refl workspaces
              (fun it _ n => process_grows env a n it) 1 s1)
    as [(_ & _ & (l2 & E2 & A2) & _) _].
  cbn [fst snd] in *. unfold keeps in *. cbn in K1.
  destruct (loop env a 1 workspaces s1) as [[[] | e1] s2]; cbn [fst snd] in *.
  - destruct (report_result env a s2) as (_ & R1 & _ & R2).
    rewrite R1, R2, K2, K1. cbn. rewrite app_nil_r, E2, E1, !forallb_app, A1, A2.
    auto.
  - rewrite K2, K1, E2, E1, !forallb_app, A1, A2. auto.
Qed.

Lemma no_conflict_no_skip_file_witness :
  let workspaces :=
    [mkItem Sample.app_dev 2 Sample.no_state;
     mkItem Sample.api_prod 2 (Sample.all_ok "https://archivist/2" [])] in
  skipped_workspaces (snd (run Sample.env Sample.live workspaces [])) = [].
Proof.
  intros workspaces.
  refine (proj1 (no_conflict_no_skip_file Sample.env Sample.live workspaces [] _)).
  intros it [<- | [<- | []]]; reflexivity.
Defined.

Lemma loop_all_succeed (env : environ) (a : args) :
  locking a = true -> nonempty (cache_dir a) = false ->
  limit_workspaces a = 0%Z ->
  forall workspaces n s,
    (forall it, In it workspaces -> succeeds (it_env it)) ->
    let out := loop env a (S n) workspaces s in
    fst out = Ok tt
    /\ count_effects is_upload (snd out)
       = count_effects is_upload s + length workspaces
    /\ skipped_workspaces (snd out) = skipped_workspaces s
    /\ uploaded_ws_count (snd out)
       = match workspaces with
         | [] => uploaded_ws_count s
         | _ => n + length workspaces
         end.
Proof.
  intros Hl Hc Hlim. induction workspaces as [|it rest IH]; intros n s Hs out;
    subst out; cbn [loop].
  - cbn. repeat split; auto.
  - rewrite Hlim. cbn [Z.eqb]. unfold bind.
    destruct (Hs it (or_introl eq_refl))
      as (Hlk & Hun & Hup & m & u & resp & Hg & Hu & Hdl & Hst).
    destruct (process_success env a (S n) it s m u resp
                Hl Hc Hlk Hg Hu Hdl Hst Hun Hup) as (P1 & P2 & P3 & _ & P5).
    destruct (process env a (S n) it s) as [r1 s1]. cbn [fst snd] in *.
    subst r1.
    destruct (IH (S n) s1 (fun it' Hin => Hs it' (or_intror Hin)))
      as (Q1 & Q2 & Q3 & Q4).
    repeat split; auto.
    + rewrite Q2. unfold count_effects. rewrite P2, filter_app, length_app.
      cbn. lia.
    + congruence.
    + rewrite Q4. destruct rest as [|it' rest'].
      * cbn. rewrite P3. lia.
      * cbn [length]. lia.
Qed.

(** X23. A live run with locking, without limit and cache directory, in
    which every call succeeds ends normally, uploads every workspace
    enumerated, skips none and writes no skip file; the counter of uploads
    it reports is then the number of uploads. *)
Theorem all_succeed_all_uploaded (env : environ) (a : args)
    (workspaces : list item) (fs : list (str * file_content)) :
  locking a = true -> nonempty (cache_dir a) = false ->
  limit_workspaces a = 0%Z ->
  (forall it, In it workspaces -> succeeds (it_env it)) ->
  let out := run env a workspaces fs in
  fst out = Ok tt
  /\ count_effects is_upload (snd out) = length workspaces
  /\ uploaded_ws_count (snd out) = length workspaces
  /\ skipped_workspaces (snd out) = []
  /\ count_effects is_file_write (snd out) = 0.
Proof.
  intros Hl Hc Hlim Hs out. subst out.
  assert (Hd : dry_run a = false).
  { unfold locking in Hl. apply andb_true_iff in Hl as [_ Hl].
    apply negb_true_iff in Hl. exact Hl. }
  assert (Hsetup : setup env a (initial_state fs) = (Ok tt, initial_state fs)).
  { unfold setup, when. rewrite Hd, Hc. reflexivity. }
  assert (Hrun : run env a workspaces fs
                 = match loop env a 1 workspaces (initial_state fs) with
                   | (Ok _, s2) => report env a s2
                   | (Raise e, s2) => (Raise e, s2)
                   end).
  { unfold run, main, bind. rewrite Hsetup. reflexivity. }
  rewrite Hrun. clear Hrun.
  destruct (loop_all_succeed env a Hl Hc Hlim workspaces 0 (initial_state fs) Hs)
    as (Q1 & Q2 & Q3 & Q4).
  assert (Hfw : count_effects is_file_write
                  (snd (loop env a 1 workspaces (initial_state fs))) = 0).
  { assert (Hp : forall it, In it workspaces -> forall n,
                   post (process env a n it)
                        (grows (fun e => negb (is_file_write e)) any_message)
                        any_exn).
    { intros it _ n. unfold_program. rewrite Hc. repeat post_step. }
    destruct (loop_post env a _ _ _ any_exn eq_refl workspaces Hp 1
                (initial_state fs)) as [(_ & _ & (l & E & A) & _) _].
    unfold count_effects. rewrite E. cbn.
    rewrite (filter_excluded (fun e => negb (is_file_write e)) is_file_write);
      auto.
    intros x Hx. apply negb_true_iff in Hx. exact Hx. }
  destruct (loop env a 1 workspaces (initial_state fs)) as [r2 s2].
  cbn [fst snd] in *. subst r2.
  destruct (report_result env a s2) as (R0 & R1 & R3 & R2).
  cbn in Q2, Q3.
  repeat split; auto.
  - unfold count_effects in *. rewrite R2, Q3. cbn. rewrite app_nil_r. exact Q2.
  - rewrite R3, Q4. destruct workspaces; reflexivity.
  - congruence.
  - unfold count_effects in *. rewrite R2, Q3. cbn. rewrite app_nil_r. exact Hfw.
Qed.

Lemma all_succeed_all_uploaded_witness :
  let workspaces :=
    [mkItem Sample.app_dev 2 (Sample.all_ok "https://archivist/1" []);
     mkItem Sample.api_prod 2 (Sample.all_ok "https://archivist/2" [])] in
  uploaded_ws_count (snd (run Sample.env Sample.live workspaces [])) = 2.
Proof.
  intros workspaces.
  destruct (all_succeed_all_uploaded Sample.env Sample.live workspaces []
              eq_refl eq_refl eq_refl) as (_ & _ & H & _).
  - intros it [<- | [<- | []]];
      (split; [reflexivity|]); (split; [reflexivity|]);
      (split; [reflexivity|]).
    + exists (Sample.meta "https://archivist/1"), (lit "https://archivist/1"),
        (mkResponse 200 []). repeat split.
    + exists (Sample.meta "https://archivist/2"), (lit "https://archivist/2"),
        (mkResponse 200 []). repeat split.
  - exact H.
Defined.

End RunExtras.
